(** * mietmap scraper: a shallow embedding of [scraper/scrape.py]

    The development follows the layout of the Python module: locale
    parsers, the listing extractor, the listing store, the pagination
    driver, the persistent memoizer and the rate limiter.  Python
    exceptions are modelled by the [result] monad, dictionaries by
    [gmap], unicode strings by lists of code points. *)

From Stdlib Require Import ZArith NArith Ascii String.
From stdpp Require Import base option list gmap strings fin_maps sorting.

Local Open Scope list_scope.

(** ** Exceptions *)

Inductive exn : Type :=
  | ValueError
  | IndexError
  | AttributeError
  | UnboundLocalError
  | IOError
  | TypeError.

Inductive result (A : Type) : Type :=
  | Ok (a : A)
  | Raise (e : exn).
Arguments Ok {A} a.
Arguments Raise {A} e.

#[export] Instance result_ret : MRet result := λ A a, Ok a.
#[export] Instance result_bind : MBind result := λ A B f m,
  match m with
  | Ok a => f a
  | Raise e => Raise e
  end.

(** ** Unicode strings

    The module runs under [unicode_literals]; every string it handles is
    a Python 2 [unicode] object, i.e. a sequence of code points. *)

Abbreviation ustring := (list N).

Definition ustr (s : string) : ustring :=
  (λ a, N_of_ascii a) <$> list_ascii_of_string s.

Definition eszett : N := 223%N.      (* U+00DF *)
Definition euro_sign : N := 8364%N.  (* U+20AC *)
Definition superscript_two : N := 178%N. (* U+00B2 *)

(** [unicode.isspace] for a single code point (the table of CPython 2.7). *)
Definition py_isspace (c : N) : bool :=
  (((9 <=? c) && (c <=? 13)) || ((28 <=? c) && (c <=? 32))
   || (c =? 133) || (c =? 160) || (c =? 5760) || (c =? 6158)
   || ((8192 <=? c) && (c <=? 8202))
   || (c =? 8232) || (c =? 8233) || (c =? 8239) || (c =? 8287)
   || (c =? 12288))%N.

Fixpoint dropwhile {A} (p : A → bool) (l : list A) : list A :=
  match l with
  | [] => []
  | x :: l' => if p x then dropwhile p l' else l
  end.

(** [s.strip()] *)
Definition strip (s : ustring) : ustring :=
  reverse (dropwhile py_isspace (reverse (dropwhile py_isspace s))).

Fixpoint is_prefix (p s : ustring) : bool :=
  match p, s with
  | [], _ => true
  | _ :: _, [] => false
  | a :: p', b :: s' => (a =? b)%N && is_prefix p' s'
  end.

(** [s.startswith(p)] and [s.endswith(p)] *)
Definition startswith (s p : ustring) : bool := is_prefix p s.
Definition endswith (s p : ustring) : bool := is_prefix (reverse p) (reverse s).

(** [s.split(sep)] for a non-empty separator: the string is cut at the
    leftmost non-overlapping occurrences of [sep].  [skip] counts the
    characters of a separator that is being stepped over, [cur] holds
    the current field in reverse. *)
Fixpoint split_go (sep : ustring) (skip : nat) (cur s : ustring) : list ustring :=
  match s with
  | [] => [reverse cur]
  | c :: s' =>
      match skip with
      | S k => split_go sep k cur s'
      | O =>
          if is_prefix sep s
          then reverse cur :: split_go sep (length sep - 1) [] s'
          else split_go sep 0 (c :: cur) s'
      end
  end.

Definition split (sep s : ustring) : list ustring := split_go sep 0 [] s.

(** [s.rsplit(c, 1)] for a one-character separator: cut at the last
    occurrence of [c], if there is one. *)
Fixpoint rfind_cut (c : N) (s : ustring) : option (ustring * ustring) :=
  match s with
  | [] => None
  | x :: s' =>
      match rfind_cut c s' with
      | Some (a, b) => Some (x :: a, b)
      | None => if (x =? c)%N then Some ([], s') else None
      end
  end.

Definition rsplit1 (c : N) (s : ustring) : list ustring :=
  match rfind_cut c s with
  | Some (a, b) => [a; b]
  | None => [s]
  end.

(** [s.split()]: fields separated by runs of white space, empty fields
    dropped. *)
Fixpoint split_ws_go (cur s : ustring) : list ustring :=
  match s with
  | [] => match cur with [] => [] | _ => [reverse cur] end
  | c :: s' =>
      if py_isspace c
      then match cur with
           | [] => split_ws_go [] s'
           | _ => reverse cur :: split_ws_go [] s'
           end
      else split_ws_go (c :: cur) s'
  end.

Definition split_ws (s : ustring) : list ustring := split_ws_go [] s.

(** [s.replace(old, new)] for a one-character [old]. *)
Definition replace1 (old : N) (new : ustring) (s : ustring) : ustring :=
  s ≫= (λ c, if (c =? old)%N then new else [c]).

(** Subscripting [l[i]] and [l[-1]]. *)
Definition index {A} (l : list A) (i : nat) : result A :=
  match l !! i with
  | Some x => Ok x
  | None => Raise IndexError
  end.

Definition index_last {A} (l : list A) : result A :=
  match last l with
  | Some x => Ok x
  | None => Raise IndexError
  end.

(** Tuple unpacking [a, b = l]. *)
Definition unpack2 {A} (l : list A) : result (A * A) :=
  match l with
  | [a; b] => Ok (a, b)
  | _ => Raise ValueError
  end.

(** ** Locale parsers *)

Definition is_S (c : N) : bool := ((c =? 83) || (c =? 115))%N.

(** [re.sub(r'([Ss])(trasse|tr.)\Z', r'\1traße', street)].
    The pattern is anchored at the end of the string by [\Z], so it has
    at most one match: either the string ends in [S|s] followed by
    "trasse" (seven characters), or it ends in [S|s], "tr" and one more
    character, where [.] stands for any character but a newline.  The
    match keeps group 1 and replaces the rest by "traße". *)
Definition re_sub_strasse (street : ustring) : ustring :=
  let traeszette := ustr "tra" ++ [eszett] ++ ustr "e" in
  match reverse street with
  | 101%N :: 115%N :: 115%N :: 97%N :: 114%N :: 116%N :: c :: rest =>
      if is_S c then reverse rest ++ c :: traeszette
      else street
  | d :: 114%N :: 116%N :: c :: rest =>
      if is_S c && negb (d =? 10)%N then reverse rest ++ c :: traeszette
      else street
  | _ => street
  end.

(** [parse_address] *)
Definition parse_address (address : ustring)
  : result (option ustring * option ustring * ustring) :=
  let fields := strip <$> split (ustr ", ") address in
  if decide (length fields = 2) then
    suburb ← index fields 0;
    Ok (None, None, suburb)
  else
    field0 ← index fields 0;
    '(street, number) ← unpack2 (rsplit1 32%N field0);
    let street := re_sub_strasse street in
    suburb ← index fields 1;
    Ok (Some street, Some number, suburb).

(** [foldM]: a [for] loop whose body may raise. *)
Fixpoint foldM {A S} (body : S → A → result S) (s : S) (l : list A) : result S :=
  match l with
  | [] => Ok s
  | x :: l' => s' ← body s x; foldM body s' l'
  end.

(** ** Listing extractor *)

(** What the extractor looks at in one [article] block of a result
    page.  A link is its [href] attribute, if it has one.  The address
    container is the [div] of class [result-list-entry__address]; the
    address element is the [span] inside it.  A criterion is a [dl] of
    class [result-list-entry__primary-criterion], given by its first
    [dd] (if any) and that element's [.string] (if it has one). *)
Inductive node : Type :=
  | NText (s : ustring)
  | NElem (markup : ustring).

Record span_tag := { span_markup : ustring; span_contents : list node }.

Record address_div := { div_span : option span_tag }.

Record entry := {
  entry_links : list (option ustring);
  entry_address : option address_div;
  entry_criteria : list (option (option ustring));
}.

(** The values the local variable [street_span] can hold. *)
Inductive pyobj : Type :=
  | PyNone
  | PyTag (markup : ustring)
  | PyText (s : ustring).

(** Truth value: [None] and the empty string are false, a tag is true. *)
Definition truthy (o : pyobj) : bool :=
  match o with
  | PyNone => false
  | PyTag _ => true
  | PyText s => negb (bool_decide (s = []))
  end.

Definition unicode (o : pyobj) : ustring :=
  match o with
  | PyNone => ustr "None"
  | PyTag m => m
  | PyText s => s
  end.

(** The [for a in entry.find_all('a') ... else: continue] loop:
    [None] when no link starts with [/expose/]. *)
Fixpoint find_listing_id (links : list (option ustring)) : result (option ustring) :=
  match links with
  | [] => Ok None
  | a :: links' =>
      if startswith (default [] a) (ustr "/expose/")
      then listing_id ← index_last (split (ustr "/") (default [] a));
           Ok (Some listing_id)
      else find_listing_id links'
  end.

(** [street_span] after the [try: street_span = street_span.contents[0]
    except: pass] block.  The statement before it, which looks for an
    [a] element, does not assign its result. *)
Definition first_content (span : option span_tag) : pyobj :=
  match span with
  | None => PyNone
  | Some t =>
      match span_contents t with
      | [] => PyTag (span_markup t)
      | NText s :: _ => PyText s
      | NElem m :: _ => PyTag m
      end
  end.

Section Extractor.
(** The builtin [float] is not part of the module: the type of floats
    and the conversion from a string are parameters. *)
Context {F : Type}.
Variable py_float : ustring → result F.

Record listing := {
  street : option ustring;
  number : option ustring;
  suburb : ustring;
  rent : F;
  area : F;
}.

(** [parse_german_float] *)
Definition parse_german_float (s : ustring) : result F :=
  py_float (replace1 44 (ustr ".") (replace1 46 [] s)).

(** The local variables of [extract_listings] that live across the
    iterations of its loop.  [rent] and [area] are unbound until the
    first assignment. *)
Record locals := {
  listings : gmap ustring listing;
  no_addresses : Z;
  var_rent : option F;
  var_area : option F;
}.

(** One iteration of the loop over the criteria of a block. *)
Definition scan_criterion (vars : option F * option F)
    (dl : option (option ustring)) : result (option F * option F) :=
  dd ← match dl with Some dd => Ok dd | None => Raise AttributeError end;
  let content := strip (match dd with Some s => s | None => ustr "None" end) in
  if endswith content (ustr " " ++ [euro_sign]) then
    word ← index (split_ws content) 0;
    r ← parse_german_float word;
    Ok (Some r, vars.2)
  else if endswith content (ustr " m" ++ [superscript_two]) then
    word ← index (split_ws content) 0;
    a ← parse_german_float word;
    Ok (vars.1, Some a)
  else Ok vars.

(** Reading a local variable that may be unbound. *)
Definition read_var (v : option F) : result F :=
  match v with
  | Some x => Ok x
  | None => Raise UnboundLocalError
  end.

(** One iteration of the loop over the blocks of a page. *)
Definition extract_entry (st : locals) (e : entry) : result locals :=
  oid ← find_listing_id (entry_links e);
  match oid with
  | None => Ok st
  | Some listing_id =>
      div ← match entry_address e with
            | Some d => Ok d
            | None => Raise AttributeError
            end;
      let street_span := first_content (div_span div) in
      '(no_addr, addr) ←
        (if negb (truthy street_span)
         then Ok (no_addresses st + 1, (Some [], Some [], []))%Z
         else addr ← parse_address (unicode street_span);
              Ok (no_addresses st, addr));
      '(r, a) ← foldM scan_criterion (var_rent st, var_area st) (entry_criteria e);
      rent_value ← read_var r;
      area_value ← read_var a;
      Ok {| listings :=
              <[listing_id := {| street := addr.1.1; number := addr.1.2;
                                 suburb := addr.2; rent := rent_value;
                                 area := area_value |}]> (listings st);
            no_addresses := no_addr;
            var_rent := r;
            var_area := a |}
  end.

(** [extract_listings], on the blocks of the page. *)
Definition extract_listings (soup : list entry)
  : result (gmap ustring listing * Z) :=
  st ← foldM extract_entry
       {| listings := ∅; no_addresses := 0; var_rent := None; var_area := None |}
       soup;
  Ok (listings st, no_addresses st).
End Extractor.

(** ** Listing store *)

Section Store.
Context {F : Type}.

(** A row of the table [listings]; the key [id] is the key of the map.
    Every column but the key may hold NULL. *)
Record row := {
  row_street : option ustring;
  row_number : option ustring;
  row_suburb : option ustring;
  row_rent : option F;
  row_area : option F;
  row_latitude : option F;
  row_longitude : option F;
  row_date : Z;
}.

(** [cursor.rowcount] under [executemany] (Python 2): it is set to -1
    when the call starts, and every statement that is executed adds the
    rows it has changed, counting from 0.  After an [executemany] over
    an empty sequence it is still -1. *)
Definition count_changes (rowcount changes : Z) : Z :=
  ((if rowcount =? -1 then 0 else rowcount) + changes)%Z.

(** One [INSERT OR IGNORE INTO listings (id, street, number, suburb,
    rent, area) VALUES (?, ?, ?, ?, ?, ?)]: a row whose key is taken is
    ignored, a new row gets NULL coordinates and the current time as
    its date.  The second component is [cursor.rowcount]. *)
Definition insert_or_ignore (now : Z) (acc : gmap ustring row * Z)
    (t : ustring * @listing F) : gmap ustring row * Z :=
  match acc.1 !! t.1 with
  | Some _ => (acc.1, count_changes acc.2 0)
  | None =>
      (<[t.1 := {| row_street := street t.2; row_number := number t.2;
                   row_suburb := Some (suburb t.2);
                   row_rent := Some (rent t.2); row_area := Some (area t.2);
                   row_latitude := None; row_longitude := None;
                   row_date := now |}]> acc.1,
       count_changes acc.2 1)
  end.

Definition executemany_insert (now : Z) (db : gmap ustring row)
    (tuples : list (ustring * @listing F)) : gmap ustring row * Z :=
  foldl (insert_or_ignore now) (db, (-1)%Z) tuples.

(** [store_listings]: the new database and the returned row count. *)
Definition store_listings (now : Z) (db : gmap ustring row)
    (listings : gmap ustring (@listing F)) : gmap ustring row * Z :=
  executemany_insert now db (map_to_list listings).

(** The query of [add_coordinates]:
    [SELECT id, street, number, suburb FROM listings WHERE (latitude IS
    NULL) AND (suburb NOT NULL) AND (street NOT NULL) AND (number NOT
    NULL)]. *)
Definition missing_coordinates (t : ustring * row)
  : option (ustring * ustring * ustring * ustring) :=
  match row_latitude t.2, row_suburb t.2, row_street t.2, row_number t.2 with
  | None, Some su, Some st, Some nu => Some (t.1, st, nu, su)
  | _, _, _, _ => None
  end.

Definition select_missing_coordinates (db : gmap ustring row)
  : list (ustring * ustring * ustring * ustring) :=
  omap missing_coordinates (map_to_list db).
End Store.

(** ** Pagination driver *)

(** A result page: the [option] elements of the control with id
    [pageSelection] (each by its [.string]), if the page has that
    control, and the listing blocks. *)
Record page := {
  page_selection : option (list (option ustring));
  page_entries : list entry;
}.

Inductive url : Type :=
  | BASE_URL
  | PAGE_URL (number : Z).

Section Driver.
Context {F : Type}.
(** The builtins [float] and [int], the transport and the clock of the
    store are parameters. *)
Variable py_float : ustring → result F.
Variable py_int : ustring → result Z.
Variable download : url → result page.
Variable now : Z.

(** [get_page] *)
Definition get_page (number : Z) : result page :=
  download (if (number =? 1)%Z then BASE_URL else PAGE_URL number).

(** [extract_number_of_pages] *)
Definition extract_number_of_pages (soup : page) : result Z :=
  pager_options ← match page_selection soup with
                  | Some l => Ok l
                  | None => Raise AttributeError
                  end;
  last_option ← index_last pager_options;
  s ← match last_option with
      | Some s => Ok s
      | None => Raise AttributeError
      end;
  word ← index (split_ws s) 0;
  py_int word.

(** The local variables of [get_new_listings], the database, and the
    page numbers logged by ["Fetching page %d"]. *)
Record driver := {
  num_pages : option Z;
  page_index : Z;
  non_addr_index : Z;
  new_count_index : Z;
  db : gmap ustring (@row F);
  fetched : list Z;
}.

(** [(not num_pages) or (page_index <= num_pages)] *)
Definition loop_condition (st : driver) : bool :=
  match num_pages st with
  | None => true
  | Some n => (n =? 0)%Z || (page_index st <=? n)%Z
  end.

Definition loop_body (st : driver) : result driver :=
  soup ← get_page (page_index st);
  n ← extract_number_of_pages soup;
  extracted ← extract_listings py_float (page_entries soup);
  let stored := store_listings now (db st) extracted.1 in
  Ok {| num_pages := Some n;
        page_index := (page_index st + 1)%Z;
        non_addr_index := (non_addr_index st + extracted.2)%Z;
        new_count_index := (new_count_index st + stored.2)%Z;
        db := stored.1;
        fetched := fetched st ++ [page_index st] |}.

(** The [while] loop; [None] when the fuel runs out. *)
Fixpoint get_new_listings_loop (fuel : nat) (st : driver) : result (option driver) :=
  match fuel with
  | O => Ok None
  | S fuel' =>
      if loop_condition st
      then st' ← loop_body st; get_new_listings_loop fuel' st'
      else Ok (Some st)
  end.

(** [get_new_listings] *)
Definition get_new_listings (fuel : nat) (database : gmap ustring (@row F))
  : result (option driver) :=
  get_new_listings_loop fuel
    {| num_pages := None; page_index := 1; non_addr_index := 0;
       new_count_index := 0; db := database; fetched := [] |}.
End Driver.

(** ** Python values used as arguments and cache keys *)

Inductive pyval : Type :=
  | VUnicode (s : ustring)
  | VStr (s : string)
  | VInt (z : Z)
  | VTuple2 (a b : pyval).

#[export] Instance pyval_eq_dec : EqDecision pyval.
Proof. solve_decision. Defined.

Fixpoint pyval_to_tree (v : pyval) : gen_tree (ustring + string + Z) :=
  match v with
  | VUnicode s => GenLeaf (inl (inl s))
  | VStr s => GenLeaf (inl (inr s))
  | VInt z => GenLeaf (inr z)
  | VTuple2 a b => GenNode 0 [pyval_to_tree a; pyval_to_tree b]
  end.

Fixpoint pyval_of_tree (t : gen_tree (ustring + string + Z)) : option pyval :=
  match t with
  | GenLeaf (inl (inl s)) => Some (VUnicode s)
  | GenLeaf (inl (inr s)) => Some (VStr s)
  | GenLeaf (inr z) => Some (VInt z)
  | GenNode _ [a; b] =>
      match pyval_of_tree a, pyval_of_tree b with
      | Some x, Some y => Some (VTuple2 x y)
      | _, _ => None
      end
  | GenNode _ _ => None
  end.

Lemma pyval_of_to_tree (v : pyval) : pyval_of_tree (pyval_to_tree v) = Some v.
Proof. induction v as [| | |a IHa b IHb]; simpl; [done..|]. by rewrite IHa, IHb. Qed.

#[export] Instance pyval_countable : Countable pyval :=
  inj_countable pyval_to_tree pyval_of_tree pyval_of_to_tree.

(** ** Rate limiter *)

Module rate_limited.
Section Decorator.
Context {X V W : Type}.
(** The configuration.  Time is counted in ticks of the clock, and
    [seconds] is the length of the window in ticks. *)
Variable calls : Z.
Variable seconds : Z.
(** The decorated function, on its arguments and the state of the world. *)
Variable f : X → W → result V * W.

(** The clock, the list [last_calls] of the closure, and the times at
    which [f] was executed. *)
Record limiter := {
  clock : Z;
  last_calls : list Z;
  executed : list Z;
}.

(** [time.sleep(delta)] raises on a negative argument. *)
Definition time_sleep (delta : Z) : result Z :=
  if (delta <? 0)%Z then Raise IOError else Ok delta.

(** The [if len(last_calls) >= calls] statement: the time slept. *)
Definition delay (now : Z) (last_calls : list Z) : result Z :=
  if (calls <=? Z.of_nat (length last_calls))%Z then
    if (calls =? 1)%Z then
      x ← index_last last_calls; time_sleep (x + seconds - now)%Z
    else
      x ← index last_calls 1; time_sleep (x + seconds - now)%Z
  else Ok 0%Z.

(** One call of [wrapper].  [gap] is the time that passed since the
    clock was last read, [lag] the time between the first reading and the
    second, on top of the time slept. *)
Definition wrapper (gap lag : Z) (x : X) (st : limiter * W)
  : result V * (limiter * W) :=
  let now := (clock st.1 + gap)%Z in
  let kept := filter (λ x, now - x ≤ seconds)%Z (last_calls st.1) in
  match delay now kept with
  | Raise e =>
      (Raise e,
       ({| clock := now; last_calls := kept; executed := executed st.1 |}, st.2))
  | Ok slept =>
      let t := (now + slept + lag)%Z in
      let '(r, w) := f x st.2 in
      (r, ({| clock := t; last_calls := kept ++ [t];
              executed := executed st.1 ++ [t] |}, w))
  end.

(** A sequence of calls; the caller goes on after an exception. *)
Definition run (inputs : list (Z * Z * X)) (st : limiter * W) : limiter * W :=
  foldl (λ st i, (wrapper i.1.1 i.1.2 i.2 st).2) st inputs.

(** The state of a fresh closure: [last_calls = []]. *)
Definition fresh (t0 : Z) : limiter :=
  {| clock := t0; last_calls := []; executed := [] |}.
End Decorator.

(** The number of executions in the trailing window [(t - seconds, t]]. *)
Definition calls_in_window (seconds t : Z) (executed : list Z) : nat :=
  length (filter (λ e, t - seconds < e ∧ e ≤ t)%Z executed).
End rate_limited.

(** ** Persistent memoizer *)

Module memoize_persistently.

(** The cache file: missing, unreadable, or a pickled mapping. *)
Inductive cache_file (V : Type) : Type :=
  | NoFile
  | Unreadable
  | Pickled (m : gmap (list pyval) V).
Arguments NoFile {V}.
Arguments Unreadable {V}.
Arguments Pickled {V} m.

(** [sorted(kwargs.items())]: the names of a dictionary are distinct, so
    the order of the pairs is the order of their names. *)
Definition items_le (a b : string * pyval) : Prop :=
  String.leb a.1 b.1 = true.

#[export] Instance items_le_dec a b : Decision (items_le a b).
Proof. unfold items_le. apply _. Defined.

(** [key = args + tuple(sorted(kwargs.items()))] *)
Definition make_key (args : list pyval) (kwargs : gmap string pyval) : list pyval :=
  args ++ ((λ i, VTuple2 (VStr i.1) i.2) <$> merge_sort items_le (map_to_list kwargs)).

Section Decorator.
Context {V W : Type}.
(** The decorated function, on [*args], [**kwargs] and the state of the
    world. *)
Variable f : list pyval → gmap string pyval → W → result V * W.

(** The dictionary [cache] of the closure, the cache file, the world,
    and the calls of [f] made so far. *)
Record memo := {
  cache : gmap (list pyval) V;
  file : cache_file V;
  world : W;
  invocations : list (list pyval * gmap string pyval);
}.

(** The body of [memoize_persistently] before [decorator]: the cache is
    loaded from the file; a missing file gives the empty cache, any
    other failure is raised. *)
Definition load (disk : cache_file V) : result (gmap (list pyval) V) :=
  match disk with
  | Pickled m => Ok m
  | NoFile => Ok ∅
  | Unreadable => Raise IOError
  end.

(** A process that starts on a given disk and world. *)
Definition start (disk : cache_file V) (w : W) : result memo :=
  m ← load disk;
  Ok {| cache := m; file := disk; world := w; invocations := [] |}.

(** One call of [wrapper] on a disk that takes the write of the cache
    file. *)
Definition wrapper (args : list pyval) (kwargs : gmap string pyval)
    (st : memo) : result V * memo :=
  let key := make_key args kwargs in
  match cache st !! key with
  | Some value => (Ok value, st)
  | None =>
      let '(r, w) := f args kwargs (world st) in
      match r with
      | Raise e =>
          (Raise e,
           {| cache := cache st; file := file st; world := w;
              invocations := invocations st ++ [(args, kwargs)] |})
      | Ok value =>
          let cache' := <[key := value]> (cache st) in
          (Ok value,
           {| cache := cache'; file := Pickled cache'; world := w;
              invocations := invocations st ++ [(args, kwargs)] |})
      end
  end.

(** One call of [wrapper] on a disk that may refuse the write:
    [writable] tells whether [open(filename, 'wb')] succeeds.  The
    assignment [value = cache[key] = ...] of the result of [f] comes
    before the [with] block, so the IOError of [open] leaves [wrapper]
    when the dictionary holds the new value already, and the file is as
    it was. *)
Definition wrapper_writing (writable : bool) (args : list pyval)
    (kwargs : gmap string pyval) (st : memo) : result V * memo :=
  let key := make_key args kwargs in
  match cache st !! key with
  | Some value => (Ok value, st)
  | None =>
      let '(r, w) := f args kwargs (world st) in
      match r with
      | Raise e =>
          (Raise e,
           {| cache := cache st; file := file st; world := w;
              invocations := invocations st ++ [(args, kwargs)] |})
      | Ok value =>
          let cache' := <[key := value]> (cache st) in
          if writable
          then (Ok value,
                {| cache := cache'; file := Pickled cache'; world := w;
                   invocations := invocations st ++ [(args, kwargs)] |})
          else (Raise IOError,
                {| cache := cache'; file := file st; world := w;
                   invocations := invocations st ++ [(args, kwargs)] |})
      end
  end.
End Decorator.
End memoize_persistently.

(** ** Geocoder *)

Section Geocoder.
Context {F G : Type}.
(** [_geolocator.geocode(address, timeout=timeout)], on the state of the
    service: a location, given by its latitude and longitude, or [None]. *)
Variable geocode : pyval → pyval → G → result (option (F * F)) * G.
(** The number of clock ticks in a second. *)
Variable second : Z.

(** The parameters [(address, timeout=5)] bound from [*args, **kwargs]. *)
Definition bind_arguments (args : list pyval) (kwargs : gmap string pyval)
  : result (pyval * pyval) :=
  let timeout := default (VInt 5) (kwargs !! "timeout"%string) in
  match args with
  | [] =>
      match kwargs !! "address"%string with
      | Some address =>
          if decide (dom kwargs ⊆ ({["address"%string; "timeout"%string]} : gset string))
          then Ok (address, timeout) else Raise TypeError
      | None => Raise TypeError
      end
  | [address] =>
      if decide (dom kwargs ⊆ ({["timeout"%string]} : gset string))
      then Ok (address, timeout) else Raise TypeError
  | [address; timeout] =>
      if decide (kwargs = ∅) then Ok (address, timeout) else Raise TypeError
  | _ => Raise TypeError
  end.

(** The undecorated [get_coordinates]. *)
Definition get_coordinates_body (args : list pyval) (kwargs : gmap string pyval)
    (g : G) : result (option F * option F) * G :=
  match bind_arguments args kwargs with
  | Raise e => (Raise e, g)
  | Ok (address, timeout) =>
      let '(r, g') := geocode address timeout g in
      (location ← r;
       Ok (match location with
           | None => (None, None)
           | Some (latitude, longitude) => (Some latitude, Some longitude)
           end),
       g')
  end.

(** [get_coordinates]: [memoize_persistently] around [rate_limited()]
    around the body, with the default of one call per second. *)
Definition get_coordinates (gap lag : Z) (args : list pyval)
    (kwargs : gmap string pyval)
    (st : @memoize_persistently.memo (option F * option F) (rate_limited.limiter * G))
  : result (option F * option F)
    * @memoize_persistently.memo (option F * option F) (rate_limited.limiter * G) :=
  memoize_persistently.wrapper
    (λ args kwargs,
       rate_limited.wrapper 1 second
         (λ x : list pyval * gmap string pyval, get_coordinates_body x.1 x.2)
         gap lag (args, kwargs))
    args kwargs st.
End Geocoder.

(** ** Coordinate backfill *)

Section Backfill.
Context {F G : Type}.
Variable geocode : pyval → pyval → G → result (option (F * F)) * G.
Variable second : Z.
(** The city name of the configuration. *)
Variable CITY : ustring.

(** ['%s %s, %s, %s' % (street, number, suburb, CITY)] *)
Definition format_address (street number suburb : ustring) : ustring :=
  street ++ ustr " " ++ number ++ ustr ", " ++ suburb ++ ustr ", " ++ CITY.

(** One [UPDATE listings SET latitude=?, longitude=? WHERE id=?], with
    [cursor.rowcount]. *)
Definition update_coordinates (acc : gmap ustring (@row F) * Z)
    (u : option F * option F * ustring) : gmap ustring (@row F) * Z :=
  match acc.1 !! u.2 with
  | Some r =>
      (<[u.2 := {| row_street := row_street r; row_number := row_number r;
                   row_suburb := row_suburb r; row_rent := row_rent r;
                   row_area := row_area r;
                   row_latitude := u.1.1; row_longitude := u.1.2;
                   row_date := row_date r |}]> acc.1,
       count_changes acc.2 1)
  | None => (acc.1, count_changes acc.2 0)
  end.

(** The loop over the selected rows.  [timing k] gives the time that
    passes before and during the [k]-th look-up; [updates] is the list
    of the same name. *)
Fixpoint geocode_rows (timing : nat → Z * Z) (k : nat)
    (rows : list (ustring * ustring * ustring * ustring))
    (updates : list (option F * option F * ustring))
    (st : @memoize_persistently.memo (option F * option F) (rate_limited.limiter * G))
  : result (list (option F * option F * ustring))
    * @memoize_persistently.memo (option F * option F) (rate_limited.limiter * G) :=
  match rows with
  | [] => (Ok updates, st)
  | (id, street, number, suburb) :: rows' =>
      let address := format_address street number suburb in
      let '(r, st') :=
        get_coordinates geocode second (timing k).1 (timing k).2
          [VUnicode address] ∅ st in
      match r with
      | Raise e => (Raise e, st')
      | Ok coordinates =>
          geocode_rows timing (S k) rows'
            (match coordinates.1 with
             | Some _ => updates ++ [(coordinates.1, coordinates.2, id)]
             | None => updates
             end)
            st'
      end
  end.

(** [add_coordinates]: the logged row count [max(0, c.rowcount)], the
    database afterwards, and the state of the geocoder. *)
Definition add_coordinates (timing : nat → Z * Z) (db : gmap ustring (@row F))
    (st : @memoize_persistently.memo (option F * option F) (rate_limited.limiter * G))
  : result Z * gmap ustring (@row F)
    * @memoize_persistently.memo (option F * option F) (rate_limited.limiter * G) :=
  match geocode_rows timing 0 (select_missing_coordinates db) [] st with
  | (Raise e, st') => (Raise e, db, st')
  | (Ok updates, st') =>
      let updated := foldl update_coordinates (db, (-1)%Z) updates in
      (Ok (Z.max 0 updated.2), updated.1, st')
  end.
End Backfill.

(** ** Stand-ins for the builtins in the examples *)

Definition digit_value (c : N) : option Z :=
  if ((48 <=? c) && (c <=? 57))%N then Some (Z.of_N c - 48)%Z else None.

Fixpoint decimal_go (acc : Z) (s : ustring) : result Z :=
  match s with
  | [] => Ok acc
  | c :: s' =>
      match digit_value c with
      | Some d => decimal_go (10 * acc + d)%Z s'
      | None => Raise ValueError
      end
  end.

(** The value of a non-empty string of decimal digits; [int] agrees
    with it on such strings, and [float] up to the conversion. *)
Definition decimal (s : ustring) : result Z :=
  match s with
  | [] => Raise ValueError
  | _ => decimal_go 0 s
  end.

(** * Example inputs and stated properties *)

(** ** Strings *)

(** [sep] occurs in [s]. *)
Definition occurs (sep s : ustring) : Prop :=
  ∃ pre post, s = pre ++ sep ++ post.

(** A decision procedure for [occurs]. *)
Fixpoint contains (sep s : ustring) : bool :=
  is_prefix sep s ||
  match s with
  | [] => false
  | _ :: s' => contains sep s'
  end.

(** ** Pages *)

(** An address container whose [span] holds the text [s]. *)
Definition text_span (s : ustring) : option address_div :=
  Some {| div_span := Some {| span_markup := ustr "<span>" ++ s ++ ustr "</span>";
                              span_contents := [NText s] |} |}.

(** A page of two blocks: the first states its rent and its area, the
    second has no criterion that ends in the currency or the area unit. *)
Definition leak_page : list entry :=
  [ {| entry_links := [Some (ustr "/expose/1")];
       entry_address := text_span (ustr "Weststadt, Karlsruhe");
       entry_criteria := [Some (Some (ustr "500 " ++ [euro_sign]));
                          Some (Some (ustr "50 m" ++ [superscript_two]))] |};
    {| entry_links := [Some (ustr "/expose/2")];
       entry_address := text_span (ustr "Oststadt, Karlsruhe");
       entry_criteria := [Some (Some (ustr "3 Zi."))] |} ].

(** A page with one block that has no address element, and the database
    after that page has been extracted and stored. *)
Definition no_address_page : list entry :=
  [ {| entry_links := [Some (ustr "/expose/7")];
       entry_address := Some {| div_span := None |};
       entry_criteria := [Some (Some (ustr "500 " ++ [euro_sign]));
                          Some (Some (ustr "50 m" ++ [superscript_two]))] |} ].

(** A page of three blocks, the second of which has a link to its
    listing and no address container. *)
Definition no_container_page : list entry :=
  [ {| entry_links := [Some (ustr "/expose/1")];
       entry_address := text_span (ustr "Weststadt, Karlsruhe");
       entry_criteria := [Some (Some (ustr "500 " ++ [euro_sign]));
                          Some (Some (ustr "50 m" ++ [superscript_two]))] |};
    {| entry_links := [Some (ustr "/expose/2")];
       entry_address := None;
       entry_criteria := [Some (Some (ustr "600 " ++ [euro_sign]));
                          Some (Some (ustr "60 m" ++ [superscript_two]))] |};
    {| entry_links := [Some (ustr "/expose/3")];
       entry_address := text_span (ustr "Oststadt, Karlsruhe");
       entry_criteria := [Some (Some (ustr "700 " ++ [euro_sign]));
                          Some (Some (ustr "70 m" ++ [superscript_two]))] |} ].

Definition no_address_db : gmap ustring (@row Z) :=
  match extract_listings decimal no_address_page with
  | Ok extracted => (store_listings 0 ∅ extracted.1).1
  | Raise _ => ∅
  end.

(** ** Store and driver *)

(** What the query of [add_coordinates] selects, as the specification
    words it: the address parts are present and not empty. *)
Definition selects_present_non_empty {F : Type} (db : gmap ustring (@row F)) : Prop :=
  ∀ id st nu su : ustring,
    (id, st, nu, su) ∈ select_missing_coordinates db ↔
    ∃ r, db !! id = Some r ∧ row_latitude r = None
         ∧ row_street r = Some st ∧ row_number r = Some nu
         ∧ row_suburb r = Some su
         ∧ st ≠ [] ∧ nu ≠ [] ∧ su ≠ [].

(** The driver as the specification words it: the total is the one that
    page 1 reports, and the run ends when the index exceeds it. *)
Definition total_fixed_by_first_page {F : Type} (py_float : ustring → result F)
    (py_int : ustring → result Z) (download : url → result page) (now : Z)
    (fuel : nat) (database : gmap ustring (@row F)) : Prop :=
  ∀ soup total st,
    get_page download 1 = Ok soup →
    extract_number_of_pages py_int soup = Ok total →
    get_new_listings py_float py_int download now fuel database = Ok (Some st) →
    num_pages st = Some total ∧ page_index st = (total + 1)%Z.

(** Page [i] is fetched and read without error, and reports [total]. *)
Definition page_reports {F : Type} (py_float : ustring → result F)
    (py_int : ustring → result Z) (download : url → result page)
    (i total : Z) : Prop :=
  ∃ soup extracted,
    get_page download i = Ok soup
    ∧ extract_number_of_pages py_int soup = Ok total
    ∧ extract_listings py_float (page_entries soup) = Ok extracted.

(** Page [i] of the site is received and its extraction gives no
    listing. *)
Definition holds_no_listing {F : Type} (py_float : ustring → result F)
    (download : url → result page) (i : Z) : bool :=
  match get_page download i with
  | Ok soup =>
      match extract_listings py_float (page_entries soup) with
      | Ok extracted => size extracted.1 =? 0
      | Raise _ => false
      end
  | Raise _ => false
  end.

(** A site whose first page announces two pages and whose second and
    third pages announce three. *)
Definition selector (labels : list string) : option (list (option ustring)) :=
  Some ((λ s, Some (ustr s)) <$> labels).

Definition growing_site (u : url) : result page :=
  match u with
  | BASE_URL =>
      Ok {| page_selection := selector ["1"; "2"]%string; page_entries := [] |}
  | PAGE_URL 2 =>
      Ok {| page_selection := selector ["1"; "2"; "3"]%string; page_entries := [] |}
  | PAGE_URL 3 =>
      Ok {| page_selection := selector ["1"; "2"; "3"]%string; page_entries := [] |}
  | PAGE_URL _ => Raise IOError
  end.

Definition growing_totals (i : Z) : Z := if (i =? 1)%Z then 2%Z else 3%Z.

(** ** Memoizer and rate limiter *)

(** A function that fails on the address "nowhere" and answers 49 on
    every other call, and which counts its calls in the world. *)
Definition flaky (args : list pyval) (kwargs : gmap string pyval) (w : nat)
  : result Z * nat :=
  if decide (args = [VUnicode (ustr "nowhere")])
  then (Raise IOError, S w) else (Ok 49%Z, S w).

Definition cold : @memoize_persistently.memo Z nat :=
  {| memoize_persistently.cache := ∅;
     memoize_persistently.file := memoize_persistently.NoFile;
     memoize_persistently.world := 0;
     memoize_persistently.invocations := [] |}.

(** A function that returns at once. *)
Definition instant (x : unit) (w : unit) : result unit * unit := (Ok (), w).

(** Five calls in a row on a clock that does not move between them. *)
Definition burst : list (Z * Z * unit) := replicate 5 (0%Z, 0%Z, ()).

(** The entries of a list of times do not decrease. *)
Definition ascending (l : list Z) : Prop :=
  ∀ i j a b, i ≤ j → l !! i = Some a → l !! j = Some b → (a ≤ b)%Z.

(** Two entries that are [k] places apart are at least [seconds] apart. *)
Definition spaced (seconds : Z) (k : nat) (l : list Z) : Prop :=
  ∀ i a b, l !! i = Some a → l !! (i + k) = Some b → (a + seconds ≤ b)%Z.

(** ** Backfill and sequences of calls *)

(** Two rows that agree in every column but latitude and longitude. *)
Definition same_listing {F : Type} (r r' : @row F) : Prop :=
  row_street r = row_street r' ∧ row_number r = row_number r'
  ∧ row_suburb r = row_suburb r' ∧ row_rent r = row_rent r'
  ∧ row_area r = row_area r' ∧ row_date r = row_date r'.

(** Every row that has a latitude has a street, a number and a suburb. *)
Definition coordinates_imply_address {F : Type} (db : gmap ustring (@row F)) : Prop :=
  ∀ id r, db !! id = Some r → row_latitude r ≠ None →
    is_Some (row_street r) ∧ is_Some (row_number r) ∧ is_Some (row_suburb r).

(** A sequence of calls of a memoized function. *)
Definition memoized_run {V W : Type}
    (f : list pyval → gmap string pyval → W → result V * W)
    (calls : list (list pyval * gmap string pyval))
    (st : @memoize_persistently.memo V W) : @memoize_persistently.memo V W :=
  foldl (λ st c, (memoize_persistently.wrapper f c.1 c.2 st).2) st calls.

(** A sequence of calls of a memoized function, each with the answer
    of the disk to a write of the cache file. *)
Definition memoized_run_writing {V W : Type}
    (f : list pyval → gmap string pyval → W → result V * W)
    (calls : list (bool * list pyval * gmap string pyval))
    (st : @memoize_persistently.memo V W) : @memoize_persistently.memo V W :=
  foldl (λ st c, (memoize_persistently.wrapper_writing f c.1.1 c.1.2 c.2 st).2)
    st calls.


(** A service that finds every address at the same place. *)
Definition found_everywhere (address timeout : pyval) (g : unit)
  : result (option (Z * Z)) * unit :=
  (Ok (Some (49%Z, 8%Z)), g).

(** The geocoder of a new process without cache file. *)
Definition idle : @memoize_persistently.memo (option Z * option Z)
                    (rate_limited.limiter * unit) :=
  {| memoize_persistently.cache := ∅;
     memoize_persistently.file := memoize_persistently.NoFile;
     memoize_persistently.world := (rate_limited.fresh 0, ());
     memoize_persistently.invocations := [] |}.

(** Five calls, one tick after one another. *)
Definition steady : list (Z * Z * unit) := replicate 5 (1%Z, 0%Z, ()).

(** A service that finds no address. *)
Definition not_found (address timeout : pyval) (g : unit)
  : result (option (Z * Z)) * unit :=
  (Ok None, g).

(** A service that cannot be reached: every look-up raises. *)
Definition unreachable (address timeout : pyval) (g : unit)
  : result (option (Z * Z)) * unit :=
  (Raise IOError, g).

(** A site whose pages all report the total 0 and hold no block. *)
Definition empty_site (u : url) : result page :=
  Ok {| page_selection := selector ["0"]%string; page_entries := [] |}.

(** * Properties *)

(** ** Strings *)

Lemma is_prefix_true (p s : ustring) :
  is_prefix p s = true → ∃ post, s = p ++ post.
Proof.
  revert s. induction p as [|a p IH]; intros s Hp.
  - by exists s.
  - destruct s as [|b s]; [done|]. simpl in Hp.
    apply andb_true_iff in Hp as [Hab Hp].
    apply N.eqb_eq in Hab as ->.
    destruct (IH _ Hp) as [post ->]. by exists post.
Qed.

Lemma split_go_no_sep (sep s cur : ustring) :
  ¬ occurs sep s → split_go sep 0 cur s = [reverse cur ++ s].
Proof.
  revert cur. induction s as [|c s IH]; intros cur Hno; simpl.
  - by rewrite app_nil_r.
  - destruct (is_prefix sep (c :: s)) eqn:Hp.
    + destruct (is_prefix_true _ _ Hp) as [post Hpost].
      destruct Hno. exists [], post. by rewrite Hpost.
    + rewrite IH.
      * by rewrite reverse_cons, <- app_assoc.
      * intros (pre & post & ->). apply Hno. by exists (c :: pre), post.
Qed.

Lemma split_no_sep (sep s : ustring) : ¬ occurs sep s → split sep s = [s].
Proof. intros Hno. unfold split. by rewrite split_go_no_sep. Qed.

Lemma rfind_cut_None (c : N) (s : ustring) : c ∉ s → rfind_cut c s = None.
Proof.
  induction s as [|x s IH]; [done|]. intros Hc. simpl.
  rewrite IH by (intros ?; apply Hc; by right).
  destruct (N.eqb_spec x c) as [->|]; [|done].
  destruct Hc. by left.
Qed.

Lemma rfind_cut_Some (c : N) (s : ustring) :
  c ∈ s → ∃ a b, rfind_cut c s = Some (a, b) ∧ s = a ++ c :: b ∧ c ∉ b.
Proof.
  induction s as [|x s IH]; intros Hc; [by apply elem_of_nil in Hc|].
  simpl. destruct (decide (c ∈ s)) as [Hs|Hs].
  - destruct (IH Hs) as (a & b & -> & -> & Hb). by exists (x :: a), b.
  - rewrite rfind_cut_None by done.
    apply elem_of_cons in Hc as [->|]; [|done].
    rewrite N.eqb_refl. by exists [], s.
Qed.

Lemma is_prefix_app (p post : ustring) : is_prefix p (p ++ post) = true.
Proof. induction p as [|a p IH]; [done|]. simpl. by rewrite N.eqb_refl. Qed.

Lemma occurs_contains (sep s : ustring) : occurs sep s → contains sep s = true.
Proof.
  intros (pre & post & ->). induction pre as [|c pre IH].
  - assert (Hp := is_prefix_app sep post).
    rewrite app_nil_l. destruct (sep ++ post); simpl; by rewrite Hp.
  - simpl. rewrite IH. apply orb_true_r.
Qed.

(** ** Locale parsers *)

(** C10: an address without the separator [", "] has a single field, and
    [parse_address] raises on it: [IndexError] from the look-up of the
    second field when the field contains a space (as in "Hauptstraße
    12"), [ValueError] from the unpacking of [rsplit] before that when it
    does not.  It never returns a parsed address. *)
Theorem parse_address_single_field (address : ustring) :
  ¬ occurs (ustr ", ") address →
  parse_address address
  = Raise (if bool_decide (32%N ∈ strip address) then IndexError else ValueError).
Proof.
  intros Hno. unfold parse_address.
  rewrite split_no_sep by done. simpl.
  unfold rsplit1. case_bool_decide as Hsp.
  - by destruct (rfind_cut_Some _ _ Hsp) as (a & b & -> & _ & _).
  - by rewrite rfind_cut_None.
Qed.

Lemma parse_address_single_field_witness :
  ¬ occurs (ustr ", ") (ustr "Hauptstra" ++ [eszett] ++ ustr "e 12")
  ∧ parse_address (ustr "Hauptstra" ++ [eszett] ++ ustr "e 12") = Raise IndexError.
Proof.
  assert (Hno : ¬ occurs (ustr ", ") (ustr "Hauptstra" ++ [eszett] ++ ustr "e 12")).
  { intros Hocc. apply occurs_contains in Hocc. vm_compute in Hocc. discriminate. }
  split; [exact Hno|].
  exact (parse_address_single_field _ Hno).
Defined.

(** The two-field case: the first field, stripped, is the suburb. *)
Lemma parse_address_two_fields (address a b : ustring) :
  split (ustr ", ") address = [a; b] →
  parse_address address = Ok (None, None, strip a).
Proof. intros Hs. unfold parse_address. by rewrite Hs. Qed.

(** Three fields or more: the first field is cut at its last space. *)
Lemma parse_address_more_fields (address a b c street number : ustring)
    (rest : list ustring) :
  split (ustr ", ") address = a :: b :: c :: rest →
  strip a = street ++ 32%N :: number → 32%N ∉ number →
  parse_address address
  = Ok (Some (re_sub_strasse street), Some number, strip b).
Proof.
  intros Hs Ha Hn. unfold parse_address. rewrite Hs. simpl.
  rewrite Ha. unfold rsplit1.
  assert (Hc : rfind_cut 32 (street ++ 32%N :: number) = Some (street, number)).
  { clear Ha. induction street as [|x street IH]; simpl.
    - by rewrite rfind_cut_None.
    - by rewrite IH. }
  by rewrite Hc.
Qed.

(** The two spellings the pattern is written for. *)
Lemma re_sub_strasse_strasse (stem : ustring) (c : N) :
  is_S c = true →
  re_sub_strasse (stem ++ c :: ustr "trasse")
  = stem ++ c :: ustr "tra" ++ [eszett] ++ ustr "e".
Proof.
  intros Hc. unfold re_sub_strasse.
  replace (stem ++ c :: ustr "trasse")
    with (stem ++ [c] ++ ustr "trasse") by done.
  rewrite !reverse_app. simpl. rewrite Hc. by rewrite reverse_involutive.
Qed.

Lemma re_sub_strasse_str_dot (stem : ustring) (c : N) :
  is_S c = true →
  re_sub_strasse (stem ++ c :: ustr "tr.")
  = stem ++ c :: ustr "tra" ++ [eszett] ++ ustr "e".
Proof.
  intros Hc. unfold re_sub_strasse.
  replace (stem ++ c :: ustr "tr.") with (stem ++ [c] ++ ustr "tr.") by done.
  rewrite !reverse_app. simpl. rewrite Hc. by rewrite reverse_involutive.
Qed.

(** C7: the pattern [tr.] ends in an unescaped dot, which stands for any
    character.  The street "Maestro" carries no abbreviation of "Straße",
    and yet [parse_address] returns it as "Maestraße"; the number and the
    suburb are cut as described. *)
Theorem parse_address_rewrites_maestro :
  parse_address (ustr "Maestro 5, Mitte, Karlsruhe")
  = Ok (Some (ustr "Maestra" ++ [eszett] ++ ustr "e"), Some (ustr "5"), ustr "Mitte")
  ∧ re_sub_strasse (ustr "Maestro") ≠ ustr "Maestro".
Proof. split; [by vm_compute|]. vm_compute. discriminate. Qed.

(** ** Listing extractor *)

Lemma foldM_app {A S} (body : S → A → result S) (s : S) (l1 l2 : list A) :
  foldM body s (l1 ++ l2) = (s' ← foldM body s l1; foldM body s' l2).
Proof.
  revert s. induction l1 as [|x l1 IH]; intros s; simpl; [done|].
  destruct (body s x); simpl; [apply IH|done].
Qed.

Section ExtractorProperties.
Context {F : Type}.
Variable py_float : ustring → result F.


(** When the address container itself is missing, the look-up of the
    [span] in it raises, and the extraction of the page stops there. *)
Lemma extract_entry_no_container (st : locals) (e : entry) (listing_id : ustring) :
  find_listing_id (entry_links e) = Ok (Some listing_id) →
  entry_address e = None →
  extract_entry py_float st e = Raise AttributeError.
Proof. intros Hid Hdiv. unfold extract_entry. rewrite Hid. simpl. by rewrite Hdiv. Qed.

(** C8: a block that has an identifier and no address container stops
    the extraction of its page.  The [span] is looked up in the result
    of [entry.find], which is [None] for such a block, so the iteration
    raises AttributeError; whatever the blocks before it have given and
    whatever blocks come after it, [extract_listings] raises and returns
    no listing of the page. *)
Theorem extract_listings_no_container (before after : list entry) (e : entry)
    (st : locals) (listing_id : ustring) :
  foldM (extract_entry py_float)
    {| listings := ∅; no_addresses := 0; var_rent := None; var_area := None |}
    before = Ok st →
  find_listing_id (entry_links e) = Ok (Some listing_id) →
  entry_address e = None →
  extract_entry py_float st e = Raise AttributeError
  ∧ extract_listings py_float (before ++ e :: after) = Raise AttributeError.
Proof.
  intros Hbefore Hid Hdiv.
  assert (He := extract_entry_no_container st e listing_id Hid Hdiv).
  split; [exact He|].
  unfold extract_listings. rewrite foldM_app, Hbefore. simpl. by rewrite He.
Qed.
End ExtractorProperties.

Lemma extract_listings_no_container_witness :
  extract_listings decimal no_container_page = Raise AttributeError.
Proof.
  refine (proj2 (extract_listings_no_container decimal
            [List.hd {| entry_links := []; entry_address := None;
                        entry_criteria := [] |} no_container_page]
            (List.tl (List.tl no_container_page))
            {| entry_links := [Some (ustr "/expose/2")];
               entry_address := None;
               entry_criteria := [Some (Some (ustr "600 " ++ [euro_sign]));
                                  Some (Some (ustr "60 m" ++ [superscript_two]))] |}
            _ (ustr "2") _ _ _)); reflexivity.
Defined.

(** C9: [rent] and [area] are variables of the whole function and are
    not reset per block.  On [leak_page] the second block matches neither
    suffix, and the listing entered for it carries the rent and the area
    of the first block. *)
Theorem extract_listings_carries_over {F : Type} (py_float : ustring → result F)
    (r a : F) :
  py_float (ustr "500") = Ok r →
  py_float (ustr "50") = Ok a →
  extract_listings py_float leak_page
  = Ok (<[ustr "2" := {| street := None; number := None; suburb := ustr "Oststadt";
                         rent := r; area := a |}]>
        (<[ustr "1" := {| street := None; number := None; suburb := ustr "Weststadt";
                          rent := r; area := a |}]> ∅), 0%Z).
Proof.
  intros Hr Ha. vm_compute in Hr, Ha.
  vm_compute. rewrite Hr. vm_compute. rewrite Ha. vm_compute.
  reflexivity.
Qed.

Lemma extract_listings_carries_over_witness :
  decimal (ustr "500") = Ok 500%Z ∧ decimal (ustr "50") = Ok 50%Z
  ∧ extract_listings decimal leak_page
    = Ok (<[ustr "2" := {| street := None; number := None; suburb := ustr "Oststadt";
                           rent := 500%Z; area := 50%Z |}]>
          (<[ustr "1" := {| street := None; number := None; suburb := ustr "Weststadt";
                            rent := 500%Z; area := 50%Z |}]> ∅), 0%Z).
Proof.
  split; [reflexivity|]. split; [reflexivity|].
  apply (extract_listings_carries_over decimal 500%Z 50%Z); reflexivity.
Defined.

(** ** Listing store *)

Section StoreProperties.
Context {F : Type}.
Implicit Types (now : Z) (acc : gmap ustring (@row F) * Z) (id : ustring).
Implicit Types (t : ustring * @listing F) (tuples : list (ustring * @listing F)).

Lemma insert_or_ignore_keeps now acc t id (r : @row F) :
  acc.1 !! id = Some r → (insert_or_ignore now acc t).1 !! id = Some r.
Proof.
  intros Hr. unfold insert_or_ignore.
  destruct (acc.1 !! t.1) eqn:Ht; [done|]. simpl.
  rewrite lookup_insert_ne; [done|]. intros Heq. rewrite Heq in Ht. congruence.
Qed.

Lemma insert_or_ignore_enters now acc t :
  is_Some ((insert_or_ignore now acc t).1 !! t.1).
Proof.
  unfold insert_or_ignore. destruct (acc.1 !! t.1) eqn:Ht; simpl.
  - by rewrite Ht.
  - rewrite lookup_insert_eq. by eexists.
Qed.

(** A stored row is never changed by later insertions. *)
Lemma executemany_insert_keeps now tuples acc id (r : @row F) :
  acc.1 !! id = Some r →
  (foldl (insert_or_ignore now) acc tuples).1 !! id = Some r.
Proof.
  revert acc. induction tuples as [|t tuples IH]; intros acc Hr; [done|].
  simpl. apply IH. by apply insert_or_ignore_keeps.
Qed.

(** Every inserted key is in the database afterwards. *)
Lemma executemany_insert_enters now tuples acc t :
  t ∈ tuples → is_Some ((foldl (insert_or_ignore now) acc tuples).1 !! t.1).
Proof.
  revert acc. induction tuples as [|t' tuples IH]; intros acc Ht.
  - by apply elem_of_nil in Ht.
  - simpl. apply elem_of_cons in Ht as [->|Ht]; [|by apply IH].
    destruct (insert_or_ignore_enters now acc t') as [r Hr].
    exists r. by apply executemany_insert_keeps.
Qed.

(** Inserting keys that are all taken leaves the table as it is. *)
Lemma executemany_insert_known now tuples acc :
  (∀ t, t ∈ tuples → is_Some (acc.1 !! t.1)) →
  (foldl (insert_or_ignore now) acc tuples).1 = acc.1.
Proof.
  revert acc. induction tuples as [|t tuples IH]; intros acc Hk; [done|]. simpl.
  assert (Ht : (insert_or_ignore now acc t).1 = acc.1).
  { unfold insert_or_ignore. destruct (Hk t) as [r ->]; [by left|done]. }
  rewrite IH, Ht; [done|]. intros t' Ht'. rewrite Ht. apply Hk. by right.
Qed.

(** One statement: the row count is no longer -1, and it has grown by
    the rows the table has gained. *)
Lemma insert_or_ignore_count now acc t :
  (-1 ≤ acc.2)%Z →
  (0 ≤ (insert_or_ignore now acc t).2)%Z
  ∧ (insert_or_ignore now acc t).2
    = (count_changes acc.2 0 + Z.of_nat (size (insert_or_ignore now acc t).1)
       - Z.of_nat (size acc.1))%Z.
Proof.
  intros Hc. unfold insert_or_ignore, count_changes.
  destruct (acc.1 !! t.1) eqn:Ht; simpl;
    [|rewrite map_size_insert_None by done];
    destruct (acc.2 =? -1)%Z eqn:Hm; lia.
Qed.

(** After at least one statement the row count is the number of rows
    the table has gained, on top of what the cursor had counted. *)
Lemma executemany_insert_count now tuples acc :
  (-1 ≤ acc.2)%Z → tuples ≠ [] →
  (foldl (insert_or_ignore now) acc tuples).2
  = (count_changes acc.2 0
     + Z.of_nat (size (foldl (insert_or_ignore now) acc tuples).1)
     - Z.of_nat (size acc.1))%Z.
Proof.
  revert acc. induction tuples as [|t tuples IH]; intros acc Hc Hne; [done|].
  destruct (insert_or_ignore_count now acc t Hc) as [H0 Hstep].
  destruct tuples as [|t' tuples]; [done|].
  change (foldl (insert_or_ignore now) acc (t :: t' :: tuples))
    with (foldl (insert_or_ignore now) (insert_or_ignore now acc t) (t' :: tuples)).
  rewrite IH; [|lia|done].
  assert (Hn : count_changes (insert_or_ignore now acc t).2 0
               = (insert_or_ignore now acc t).2).
  { unfold count_changes.
    destruct ((insert_or_ignore now acc t).2 =? -1)%Z eqn:Hm; lia. }
  lia.
Qed.

(** The table of a second insertion, and its row count. *)
Lemma executemany_insert_twice now1 now2 (db : gmap ustring (@row F)) tuples :
  executemany_insert now2 (executemany_insert now1 db tuples).1 tuples
  = ((executemany_insert now1 db tuples).1,
     match tuples with [] => (-1)%Z | _ => 0%Z end).
Proof.
  unfold executemany_insert.
  set (db1 := (foldl (insert_or_ignore now1) (db, (-1)%Z) tuples).1).
  assert (Hk : (foldl (insert_or_ignore now2) (db1, (-1)%Z) tuples).1 = db1).
  { apply (executemany_insert_known now2 tuples (db1, (-1)%Z)).
    intros t Ht. simpl. by apply executemany_insert_enters. }
  destruct tuples as [|t tuples]; [done|].
  apply injective_projections; [exact Hk|].
  rewrite executemany_insert_count; [|simpl; lia|done].
  rewrite Hk. unfold count_changes. simpl. lia.
Qed.

(** The row count that [store_listings] returns. *)
Lemma store_listings_rowcount now (db : gmap ustring (@row F))
    (listings : gmap ustring (@listing F)) :
  (store_listings now db listings).2
  = (if decide (listings = ∅) then -1
     else Z.of_nat (size (store_listings now db listings).1)
          - Z.of_nat (size db))%Z.
Proof.
  unfold store_listings, executemany_insert.
  destruct (decide (listings = ∅)) as [->|Hne].
  - by rewrite map_to_list_empty.
  - rewrite executemany_insert_count; [|simpl; lia|].
    + unfold count_changes. simpl. lia.
    + intros Hl. by apply map_to_list_empty_iff in Hl.
Qed.

(** C3: the second insertion of a set of listings, at whatever time,
    leaves the database as it is; its returned count is 0 when the set
    has a listing, and -1, not 0, when the set is empty (the row count of
    a cursor that has executed no statement).  A row that is in the
    database is the same row after any insertion, so the first write of
    an identifier wins. *)
Theorem store_listings_twice (now1 now2 : Z) (db : gmap ustring (@row F))
    (listings : gmap ustring (@listing F)) :
  store_listings now2 (store_listings now1 db listings).1 listings
  = ((store_listings now1 db listings).1,
     if decide (listings = ∅) then (-1)%Z else 0%Z)
  ∧ store_listings now2 (store_listings now1 db ∅).1 ∅ = (db, (-1)%Z)
  ∧ ∀ (now : Z) (db' : gmap ustring (@row F))
      (listings' : gmap ustring (@listing F)) (id : ustring) (r : @row F),
      db' !! id = Some r → (store_listings now db' listings').1 !! id = Some r.
Proof.
  split; [|split].
  - unfold store_listings. rewrite executemany_insert_twice. f_equal.
    destruct (decide (listings = ∅)) as [->|Hne].
    + by rewrite map_to_list_empty.
    + destruct (map_to_list listings) eqn:Hl; [|done].
      by apply map_to_list_empty_iff in Hl.
  - unfold store_listings. by rewrite map_to_list_empty.
  - intros now db' listings' id r Hr.
    unfold store_listings, executemany_insert.
    by apply executemany_insert_keeps.
Qed.

End StoreProperties.

(** C5: the row of a block without address is selected for geocoding.
    [extract_listings] gives such a block the empty string, not [None],
    as street, number and suburb, so the [NOT NULL] tests of the query
    let the row through: the selection is not that of the rows whose
    address parts are present and not empty.  [add_coordinates] then
    looks up the address [" , , Karlsruhe"] and writes the coordinates
    it gets into the row. *)
Theorem select_takes_empty_address :
  select_missing_coordinates no_address_db = [(ustr "7", [], [], [])]
  ∧ ¬ selects_present_non_empty no_address_db
  ∧ format_address (ustr "Karlsruhe") [] [] [] = ustr " , , Karlsruhe"
  ∧ (let out := add_coordinates found_everywhere 1 (ustr "Karlsruhe")
                  (λ _, (0%Z, 0%Z)) no_address_db idle in
     out.1.1 = Ok 1%Z
     ∧ memoize_persistently.invocations out.2
       = [([VUnicode (ustr " , , Karlsruhe")], ∅)]
     ∧ row_latitude <$> (out.1.2 !! ustr "7") = Some (Some 49%Z)).
Proof.
  assert (Hsel : select_missing_coordinates no_address_db = [(ustr "7", [], [], [])])
    by (by vm_compute).
  split; [exact Hsel|]. split; [|split; [reflexivity|by vm_compute]].
  intros Hspec. destruct (Hspec (ustr "7") [] [] []) as [Hnon_empty _].
  destruct Hnon_empty as (r & _ & _ & _ & _ & _ & Hst & _); [|done].
  rewrite Hsel. by left.
Qed.

(** ** Pagination driver *)

Section DriverProperties.
Context {F : Type}.
Variable py_float : ustring → result F.
Variable py_int : ustring → result Z.
Variable download : url → result page.
Variable now : Z.

Local Abbreviation loop := (get_new_listings_loop py_float py_int download now).
Local Abbreviation body := (loop_body py_float py_int download now).

Lemma loop_body_reports (st : driver) (total : Z) :
  page_reports py_float py_int download (page_index st) total →
  ∃ st', body st = Ok st'
         ∧ num_pages st' = Some total
         ∧ page_index st' = (page_index st + 1)%Z
         ∧ fetched st' = fetched st ++ [page_index st].
Proof.
  intros (soup & extracted & Hget & Hnum & Hext).
  unfold loop_body. rewrite Hget. simpl. rewrite Hnum. simpl. rewrite Hext. simpl.
  by eexists.
Qed.

(** The loop from page [k + 1] on, when [m] more pages are to come. *)
Lemma get_new_listings_loop_runs (totals : Z → Z) (n : nat) :
  (∀ i : nat, 1 ≤ i ≤ n → page_reports py_float py_int download (Z.of_nat i) (totals (Z.of_nat i))) →
  (∀ i : nat, 1 ≤ i < n →
     totals (Z.of_nat i) = 0%Z ∨ (Z.of_nat i + 1 ≤ totals (Z.of_nat i))%Z) →
  totals (Z.of_nat n) ≠ 0%Z →
  (totals (Z.of_nat n) < Z.of_nat n + 1)%Z →
  1 ≤ n →
  ∀ (m k fuel : nat) (st : driver),
    k + m = n → m < fuel →
    page_index st = (Z.of_nat k + 1)%Z →
    num_pages st = (if decide (k = 0) then None else Some (totals (Z.of_nat k))) →
    fetched st = Z.of_nat <$> seq 1 k →
    ∃ st', loop fuel st = Ok (Some st')
           ∧ fetched st' = Z.of_nat <$> seq 1 n
           ∧ num_pages st' = Some (totals (Z.of_nat n))
           ∧ page_index st' = (Z.of_nat n + 1)%Z.
Proof.
  intros Hpages Hgo Hstop0 Hstop Hn m.
  induction m as [|m IH]; intros k fuel st Hk Hfuel Hidx Hnum Hfetched.
  - assert (k = n) as -> by lia.
    destruct fuel as [|fuel]; [lia|]. simpl.
    unfold loop_condition. rewrite Hnum, Hidx.
    destruct (decide (n = 0)); [lia|].
    destruct (Z.eqb_spec (totals (Z.of_nat n)) 0); [done|].
    destruct (Z.leb_spec (Z.of_nat n + 1) (totals (Z.of_nat n))); [lia|].
    simpl. by exists st.
  - destruct fuel as [|fuel]; [lia|]. simpl.
    assert (Hcond : loop_condition st = true).
    { unfold loop_condition. rewrite Hnum, Hidx.
      destruct (decide (k = 0)); [done|].
      destruct (Hgo k) as [->|Hle]; [lia|done|].
      apply orb_true_iff. right. by apply Z.leb_le. }
    rewrite Hcond.
    destruct (loop_body_reports st (totals (Z.of_nat (S k))))
      as (st1 & Hbody & Hnum1 & Hidx1 & Hfetched1).
    { rewrite Hidx. replace (Z.of_nat k + 1)%Z with (Z.of_nat (S k)) by lia.
      apply Hpages. lia. }
    rewrite Hbody. simpl.
    apply (IH (S k)); [lia|lia|lia| |].
    + by rewrite Hnum1.
    + rewrite Hfetched1, Hfetched, Hidx.
      rewrite seq_S, fmap_app. simpl. do 3 f_equal. lia.
Qed.

(** C6, as the loop is written: the total is read again from every page
    that is fetched.  When pages 1 to [n] are fetched and read without
    error, every page before page [n] reports a total of 0 or one that
    is at least the next index, and page [n] reports a total other than
    0 and below [n + 1], the run fetches exactly the pages 1 to [n],
    stops with the index [n + 1], and the total it holds is the one that
    page [n], the last page fetched, reports. *)
Theorem get_new_listings_follows_latest_total (totals : Z → Z) (n fuel : nat)
    (database : gmap ustring (@row F)) :
  1 ≤ n → n < fuel →
  (∀ i : nat, 1 ≤ i ≤ n → page_reports py_float py_int download (Z.of_nat i) (totals (Z.of_nat i))) →
  (∀ i : nat, 1 ≤ i < n →
     totals (Z.of_nat i) = 0%Z ∨ (Z.of_nat i + 1 ≤ totals (Z.of_nat i))%Z) →
  totals (Z.of_nat n) ≠ 0%Z →
  (totals (Z.of_nat n) < Z.of_nat n + 1)%Z →
  ∃ st, get_new_listings py_float py_int download now fuel database = Ok (Some st)
        ∧ fetched st = Z.of_nat <$> seq 1 n
        ∧ num_pages st = Some (totals (Z.of_nat n))
        ∧ page_index st = (Z.of_nat n + 1)%Z.
Proof.
  intros Hn Hfuel Hpages Hgo Hstop0 Hstop. unfold get_new_listings.
  by apply (get_new_listings_loop_runs totals n Hpages Hgo Hstop0 Hstop Hn n 0).
Qed.
End DriverProperties.

(** On [growing_site] page 1 reports two pages, and the driver fetches
    three and ends with the total 3. *)
Lemma get_new_listings_rereads_total :
  (∃ st, get_new_listings decimal decimal growing_site 0 10 (∅ : gmap ustring (@row Z))
         = Ok (Some st)
         ∧ fetched st = [1; 2; 3]%Z ∧ num_pages st = Some 3%Z)
  ∧ ¬ total_fixed_by_first_page decimal decimal growing_site 0 10
        (∅ : gmap ustring (@row Z)).
Proof.
  assert (Hrun : ∃ st,
    get_new_listings decimal decimal growing_site 0 10 (∅ : gmap ustring (@row Z))
    = Ok (Some st)
    ∧ fetched st = [1; 2; 3]%Z ∧ num_pages st = Some 3%Z).
  { eexists. split; [by vm_compute|]. by split. }
  split; [exact Hrun|].
  destruct Hrun as (st & Hst & _ & Hnum).
  intros Hfixed.
  destruct (Hfixed _ 2%Z st eq_refl eq_refl Hst) as [Hnum' _].
  congruence.
Qed.

Lemma get_new_listings_follows_latest_total_witness :
  ∃ st, get_new_listings decimal decimal growing_site 0 10 (∅ : gmap ustring (@row Z))
        = Ok (Some st)
        ∧ fetched st = Z.of_nat <$> seq 1 3
        ∧ num_pages st = Some (growing_totals (Z.of_nat 3))
        ∧ page_index st = (Z.of_nat 3 + 1)%Z.
Proof.
  apply (get_new_listings_follows_latest_total decimal decimal growing_site 0
           growing_totals 3 10 ∅).
  - lia.
  - lia.
  - intros i Hi.
    assert (i = 1 ∨ i = 2 ∨ i = 3) as [->|[->| ->]] by lia;
      eexists _, _; (split; [reflexivity|]); (split; reflexivity).
  - intros i Hi. assert (i = 1 ∨ i = 2) as [->| ->] by lia;
      right; vm_compute; discriminate.
  - vm_compute. discriminate.
  - reflexivity.
Defined.

(** ** Persistent memoizer *)

Section MemoizerProperties.
Import memoize_persistently.
Context {V W : Type}.
Variable f : list pyval → gmap string pyval → W → result V * W.

(** C2: a call whose key is in the cache returns the cached value and
    leaves the whole state as it is: [f] is not called, and the world of
    [f], which for [get_coordinates] holds the rate limiter, does not
    change.  This holds for an entry that a new process has loaded from
    the cache file.  On a miss, when [f] returns, the value is entered
    under the key, the file holds the whole new mapping when the value
    is returned, and a process started on that file afterwards answers
    the same call from its cache without calling [f]. *)
Theorem memoize_persistently_cache (args : list pyval)
    (kwargs : gmap string pyval) (st : memo) :
  (∀ value, cache st !! make_key args kwargs = Some value →
     wrapper f args kwargs st = (Ok value, st))
  ∧ (∀ disk m w value,
       load disk = Ok m → m !! make_key args kwargs = Some value →
       ∃ st', start disk w = Ok st'
              ∧ wrapper f args kwargs st' = (Ok value, st')
              ∧ invocations st' = [])
  ∧ (∀ value w,
       cache st !! make_key args kwargs = None →
       f args kwargs (world st) = (Ok value, w) →
       ∃ st', wrapper f args kwargs st = (Ok value, st')
              ∧ cache st' = <[make_key args kwargs := value]> (cache st)
              ∧ file st' = Pickled (cache st')
              ∧ world st' = w
              ∧ invocations st' = invocations st ++ [(args, kwargs)]
              ∧ ∀ w', ∃ st'', start (file st') w' = Ok st''
                              ∧ wrapper f args kwargs st'' = (Ok value, st'')
                              ∧ invocations st'' = []).
Proof.
  split; [|split].
  - intros value Hhit. unfold wrapper. by rewrite Hhit.
  - intros disk m w value Hload Hhit. unfold start. rewrite Hload. simpl.
    eexists. split; [done|]. split; [|done].
    unfold wrapper. simpl. by rewrite Hhit.
  - intros value w Hmiss Hf. unfold wrapper. rewrite Hmiss, Hf.
    eexists. split; [done|]. simpl. repeat (split; [done|]).
    intros w'. eexists. split; [done|]. split; [|done].
    unfold wrapper. simpl. by rewrite lookup_insert_eq.
Qed.

(** C4: when [f] raises on a miss, the exception is raised to the
    caller, the cache and the cache file are as before, the key is still
    absent, and the next call with the same arguments calls [f] again. *)
Theorem memoize_persistently_raise (args : list pyval)
    (kwargs : gmap string pyval) (st : memo) (e : exn) (w : W) :
  cache st !! make_key args kwargs = None →
  f args kwargs (world st) = (Raise e, w) →
  ∃ st', wrapper f args kwargs st = (Raise e, st')
         ∧ cache st' = cache st
         ∧ file st' = file st
         ∧ cache st' !! make_key args kwargs = None
         ∧ invocations (wrapper f args kwargs st').2
           = invocations st ++ [(args, kwargs); (args, kwargs)].
Proof.
  intros Hmiss Hf. unfold wrapper at 1. rewrite Hmiss, Hf.
  eexists. split; [done|]. simpl. repeat (split; [done|]).
  unfold wrapper. simpl. rewrite Hmiss.
  destruct (f args kwargs w) as [[value|e'] w']; simpl;
    by rewrite <- app_assoc.
Qed.
End MemoizerProperties.

Lemma memoize_persistently_cache_witness :
  ∃ st', memoize_persistently.wrapper flaky [VUnicode (ustr "Karlsruhe")] ∅ cold
         = (Ok 49%Z, st')
         ∧ memoize_persistently.file st'
           = memoize_persistently.Pickled (memoize_persistently.cache st')
         ∧ memoize_persistently.wrapper flaky [VUnicode (ustr "Karlsruhe")] ∅ st'
           = (Ok 49%Z, st')
         ∧ ∃ st'', memoize_persistently.start (memoize_persistently.file st') 0
                   = Ok st''
                   ∧ memoize_persistently.wrapper flaky
                       [VUnicode (ustr "Karlsruhe")] ∅ st'' = (Ok 49%Z, st'').
Proof.
  destruct (memoize_persistently_cache flaky [VUnicode (ustr "Karlsruhe")] ∅ cold)
    as (_ & _ & Hmiss).
  destruct (Hmiss 49%Z 1 eq_refl eq_refl)
    as (st' & Hcall & Hcache & Hfile & _ & _ & Hrestart).
  exists st'. split; [exact Hcall|]. split; [exact Hfile|]. split.
  - apply (memoize_persistently_cache flaky [VUnicode (ustr "Karlsruhe")] ∅ st').
    rewrite Hcache. apply lookup_insert_eq.
  - destruct (Hrestart 0) as (st'' & Hstart & Hhit & _). by exists st''.
Defined.

Lemma memoize_persistently_raise_witness :
  ∃ st', memoize_persistently.wrapper flaky [VUnicode (ustr "nowhere")] ∅ cold
         = (Raise IOError, st')
         ∧ memoize_persistently.cache st' = ∅
         ∧ memoize_persistently.file st' = memoize_persistently.NoFile.
Proof.
  destruct (memoize_persistently_raise flaky [VUnicode (ustr "nowhere")] ∅ cold
              IOError 1 eq_refl eq_refl)
    as (st' & Hcall & Hcache & Hfile & _).
  by exists st'.
Defined.

(** ** Geocoder *)

(** A cache hit of [get_coordinates] leaves the rate limiter, which is
    part of the world of the memoized function, as it is. *)
Lemma get_coordinates_hit {F G : Type}
    (geocode : pyval → pyval → G → result (option (F * F)) * G)
    (second gap lag : Z) (args : list pyval) (kwargs : gmap string pyval)
    (st : @memoize_persistently.memo (option F * option F) (rate_limited.limiter * G))
    (value : option F * option F) :
  memoize_persistently.cache st !! memoize_persistently.make_key args kwargs
  = Some value →
  get_coordinates geocode second gap lag args kwargs st = (Ok value, st).
Proof.
  intros Hhit. unfold get_coordinates, memoize_persistently.wrapper.
  by rewrite Hhit.
Qed.

(** ** Rate limiter *)

(** The guarantee on a clock that moves between the calls. *)

Lemma ascending_snoc (l : list Z) (t : Z) :
  ascending l → Forall (λ e, e ≤ t)%Z l → ascending (l ++ [t]).
Proof.
  intros Hasc Hle i j a b Hij Ha Hb.
  apply lookup_snoc_Some in Ha as [[Hi Ha]|[Hi <-]];
    apply lookup_snoc_Some in Hb as [[Hj Hb]|[Hj <-]].
  - by apply (Hasc i j).
  - by apply (Forall_lookup_1 _ _ _ _ Hle Ha).
  - lia.
  - lia.
Qed.

Lemma ascending_app_r (l1 l2 : list Z) : ascending (l1 ++ l2) → ascending l2.
Proof.
  intros Hasc i j a b Hij Ha Hb.
  apply (Hasc (length l1 + i) (length l1 + j)); [lia| |].
  - rewrite lookup_app_r by lia. by replace (length l1 + i - length l1) with i by lia.
  - rewrite lookup_app_r by lia. by replace (length l1 + j - length l1) with j by lia.
Qed.

Lemma ascending_cons_inv (x : Z) (l : list Z) :
  ascending (x :: l) → ascending l ∧ Forall (λ y, x ≤ y)%Z l.
Proof.
  intros Hasc. split.
  - apply (ascending_app_r [x] l Hasc).
  - apply Forall_lookup. intros i y Hy. by apply (Hasc 0 (S i) x y); [lia| |].
Qed.

Lemma filter_all {A} (P : A → Prop) `{!∀ x, Decision (P x)} (l : list A) :
  Forall P l → filter P l = l.
Proof.
  induction 1 as [|x l Hx _ IH]; [done|].
  rewrite filter_cons_True by done. by rewrite IH.
Qed.

(** On an ascending list the filter of [wrapper] drops a front part. *)
Lemma filter_window_split (seconds now : Z) (l : list Z) :
  ascending l →
  ∃ dropped, l = dropped ++ filter (λ x, now - x ≤ seconds)%Z l
             ∧ Forall (λ x, x + seconds < now)%Z dropped.
Proof.
  induction l as [|x l IH]; intros Hasc.
  - by exists [].
  - apply ascending_cons_inv in Hasc as [Hasc Hx].
    destruct (decide (now - x ≤ seconds)%Z) as [Hin|Hout].
    + exists []. split; [|done]. simpl. symmetry. apply filter_all.
      constructor; [done|]. eapply Forall_impl; [exact Hx|]. simpl. lia.
    + destruct (IH Hasc) as (dropped & Hl & Hdropped).
      exists (x :: dropped). rewrite filter_cons_False by done. split.
      * simpl. by rewrite <- Hl.
      * constructor; [lia|done].
Qed.

Lemma sublist_lookup_ge {A} (l1 l2 : list A) :
  l1 `sublist_of` l2 →
  ∀ i a, l1 !! i = Some a → ∃ j, i ≤ j ∧ l2 !! j = Some a.
Proof.
  induction 1 as [|x l1 l2 _ IH|x l1 l2 _ IH]; intros i a Ha.
  - by rewrite lookup_nil in Ha.
  - destruct i as [|i]; simpl in Ha.
    + exists 0. by split.
    + destruct (IH i a Ha) as (j & Hj & Hl). exists (S j). split; [lia|done].
  - destruct (IH i a Ha) as (j & Hj & Hl). exists (S j). split; [lia|done].
Qed.

(** Two entries of a sublist lie at least as far apart in the list. *)
Lemma sublist_lookup_pair {A} (l1 l2 : list A) :
  l1 `sublist_of` l2 →
  ∀ i k a b, l1 !! i = Some a → l1 !! (i + k) = Some b →
    ∃ i' k', k ≤ k' ∧ l2 !! i' = Some a ∧ l2 !! (i' + k') = Some b.
Proof.
  induction 1 as [|x l1 l2 Hsub IH|x l1 l2 _ IH]; intros i k a b Ha Hb.
  - by rewrite lookup_nil in Ha.
  - destruct i as [|i]; simpl in Ha, Hb.
    + inversion Ha; subst. destruct k as [|k]; simpl in Hb.
      * inversion Hb; subst. exists 0, 0. by repeat split.
      * destruct (sublist_lookup_ge _ _ Hsub k b Hb) as (j & Hj & Hl).
        exists 0, (S j). split; [lia|]. by split.
    + destruct (IH i k a b Ha Hb) as (i' & k' & Hk & Hl1 & Hl2).
      exists (S i'), k'. by repeat split.
  - destruct (IH i k a b Ha Hb) as (i' & k' & Hk & Hl1 & Hl2).
    exists (S i'), k'. by repeat split.
Qed.

(** In an ascending list whose entries are spaced, a window holds at
    most [k] entries. *)
Lemma spaced_window (seconds t : Z) (k : nat) (l : list Z) :
  ascending l → spaced seconds k l →
  rate_limited.calls_in_window seconds t l ≤ k.
Proof.
  intros Hasc Hsp. unfold rate_limited.calls_in_window.
  set (P := λ e : Z, (t - seconds < e ∧ e ≤ t)%Z).
  destruct (decide (length (filter P l) ≤ k)) as [|Hmore]; [done|]. exfalso.
  destruct (lookup_lt_is_Some_2 (filter P l) 0) as [a Ha]; [lia|].
  destruct (lookup_lt_is_Some_2 (filter P l) k) as [b Hb]; [lia|].
  assert (HPa : P a).
  { apply list_elem_of_lookup_2 in Ha. by apply list_elem_of_filter in Ha as [? _]. }
  assert (HPb : P b).
  { apply list_elem_of_lookup_2 in Hb. by apply list_elem_of_filter in Hb as [? _]. }
  destruct (sublist_lookup_pair _ _ (sublist_filter P l) 0 k a b Ha Hb)
    as (i' & k' & Hk & Hla & Hlb).
  destruct (lookup_lt_is_Some_2 l (i' + k)) as [c Hc].
  { apply lookup_lt_Some in Hlb. lia. }
  assert (a + seconds ≤ c)%Z by (by apply (Hsp i' a c)).
  assert (c ≤ b)%Z by (by apply (Hasc (i' + k) (i' + k') c b); [lia| |]).
  unfold P in HPa, HPb. lia.
Qed.

Section RateLimiterProperties.
Import rate_limited.
Context {X V W : Type}.
Variable calls : Z.
Variable seconds : Z.
Variable f : X → W → result V * W.

(** What holds of the limiter between two calls. *)
Record invariant (l : limiter) : Prop := {
  inv_ascending : ascending (executed l);
  inv_clock : Forall (λ e, e ≤ clock l)%Z (executed l);
  inv_last_calls :
    ∃ old, executed l = old ++ last_calls l
           ∧ Forall (λ e, e + seconds < clock l)%Z old;
  inv_spaced : (1 ≤ calls)%Z → spaced seconds (Z.to_nat calls) (executed l);
  inv_none : (calls ≤ 0)%Z → executed l = [];
}.

Lemma invariant_fresh (t0 : Z) : invariant (fresh t0).
Proof.
  split; simpl.
  - intros i j a b _ Ha. by rewrite lookup_nil in Ha.
  - done.
  - by exists [].
  - intros _ i a b Ha. by rewrite lookup_nil in Ha.
  - done.
Qed.

Lemma delay_Ok (now : Z) (kept : list Z) (slept : Z) :
  delay calls seconds now kept = Ok slept →
  (0 ≤ slept)%Z
  ∧ ((calls ≤ Z.of_nat (length kept))%Z →
     ∃ x, (if decide (calls = 1%Z) then last kept else kept !! 1) = Some x
          ∧ slept = (x + seconds - now)%Z)
  ∧ ((Z.of_nat (length kept) < calls)%Z → slept = 0%Z).
Proof.
  unfold delay, time_sleep, index, index_last. intros Hdelay.
  destruct (Z.leb_spec calls (Z.of_nat (length kept))) as [Hfull|Hfree].
  - assert (∃ x, (if decide (calls = 1%Z) then last kept else kept !! 1) = Some x
                 ∧ slept = (x + seconds - now)%Z ∧ (0 ≤ slept)%Z) as (x & Hx & Hs & H0).
    { destruct (Z.eqb_spec calls 1) as [->|Hne].
      - rewrite decide_True by done.
        destruct (last kept) as [x|]; simpl in Hdelay; [|done].
        destruct (Z.ltb_spec (x + seconds - now) 0); [done|].
        exists x. inversion Hdelay. by repeat split.
      - rewrite decide_False by done.
        destruct (kept !! 1) as [x|]; simpl in Hdelay; [|done].
        destruct (Z.ltb_spec (x + seconds - now) 0); [done|].
        exists x. inversion Hdelay. by repeat split. }
    split; [done|]. split; [by exists x|lia].
  - inversion Hdelay. split; [done|]. split; [lia|done].
Qed.
(** One call of [wrapper] keeps the invariant, when time does not run
    backwards and, unless [calls = 1], the clock has moved since the
    last call. *)
Lemma wrapper_invariant (gap lag : Z) (x : X) (st : limiter * W) :
  invariant st.1 →
  (0 ≤ gap)%Z → (0 ≤ lag)%Z → (calls ≠ 1%Z → 0 < gap)%Z →
  invariant (wrapper calls seconds f gap lag x st).2.1.
Proof.
  intros [Hasc Hclock (old & Hexec & Hold) Hspaced Hnone] Hgap Hlag Hstrict.
  unfold wrapper.
  set (now := (clock st.1 + gap)%Z).
  destruct (filter_window_split seconds now (last_calls st.1))
    as (dropped & Hlc & Hdropped).
  { apply (ascending_app_r old). by rewrite <- Hexec. }
  set (kept := filter (λ x0, (now - x0 ≤ seconds)%Z) (last_calls st.1)) in *.
  assert (Hkept : Forall (λ e, now - e ≤ seconds)%Z kept).
  { apply Forall_forall. intros e He. by apply list_elem_of_filter in He as [? _]. }
  assert (Hexec' : executed st.1 = (old ++ dropped) ++ kept).
  { rewrite Hexec. rewrite Hlc at 1. by rewrite app_assoc. }
  assert (Hold' : Forall (λ e, e + seconds < now)%Z (old ++ dropped)).
  { apply Forall_app. split; [|done].
    eapply Forall_impl; [exact Hold|]. simpl. intros; lia. }
  assert (Hnow : Forall (λ e, e ≤ now)%Z (executed st.1)).
  { eapply Forall_impl; [exact Hclock|]. simpl. intros; lia. }
  assert (Hlen : length (executed st.1) = length (old ++ dropped) + length kept).
  { by rewrite Hexec', length_app. }
  assert (Hasc_kept : ascending kept).
  { apply (ascending_app_r (old ++ dropped)). by rewrite <- Hexec'. }
  destruct (delay calls seconds now kept) as [slept|e] eqn:Hdelay.
  - destruct (delay_Ok _ _ _ Hdelay) as (Hslept & Hfull & Hfree).
    destruct (f x st.2) as [r w]. simpl.
    set (t := (now + slept + lag)%Z).
    assert (Ht : (now ≤ t)%Z) by (unfold t; lia).
    split; simpl.
    + apply ascending_snoc; [done|].
      eapply Forall_impl; [exact Hnow|]. simpl. intros; lia.
    + apply Forall_app. split; [|by constructor].
      eapply Forall_impl; [exact Hnow|]. simpl. intros; lia.
    + exists (old ++ dropped). split; [by rewrite Hexec', app_assoc|].
      eapply Forall_impl; [exact Hold'|]. simpl. intros; lia.
    + intros Hcalls i a b Ha Hb.
      apply lookup_snoc_Some in Hb as [[Hj Hb]|[Hj <-]].
      * apply (Hspaced Hcalls i a b); [|done].
        by rewrite lookup_app_l in Ha by lia.
      * rewrite lookup_app_l in Ha by lia. rewrite Hexec' in Ha.
        destruct (decide (i < length (old ++ dropped))) as [Hin|Hin].
        { rewrite lookup_app_l in Ha by done.
          apply (Forall_lookup_1 _ _ _ _ Hold') in Ha. lia. }
        rewrite lookup_app_r in Ha by lia.
        destruct Hfull as (y & Hy & ->); [lia|].
        destruct (decide (calls = 1%Z)) as [Hone|Hne].
        { rewrite last_lookup in Hy.
          replace (pred (length kept)) with (i - length (old ++ dropped)) in Hy by lia.
          assert (a = y) by congruence. unfold t. lia. }
        assert (Hj0 : i - length (old ++ dropped) = 0).
        { destruct (decide (i - length (old ++ dropped) = 0)) as [|Hpos]; [done|].
          exfalso.
          destruct (lookup_lt_is_Some_2 kept 0) as [a0 Ha0]; [lia|].
          destruct (lookup_lt_is_Some_2 kept (Z.to_nat calls)) as [b0 Hb0]; [lia|].
          assert (Hsp : (a0 + seconds ≤ b0)%Z).
          { apply (Hspaced Hcalls (length (old ++ dropped))); rewrite Hexec'.
            - rewrite lookup_app_r by lia. by rewrite Nat.sub_diag.
            - rewrite lookup_app_r by lia.
              by replace (length (old ++ dropped) + Z.to_nat calls
                          - length (old ++ dropped)) with (Z.to_nat calls) by lia. }
          assert (Hb0' : (b0 ≤ clock st.1)%Z).
          { apply (Forall_forall (λ e, e ≤ clock st.1)%Z (executed st.1)); [done|].
            rewrite Hexec'. apply elem_of_app. right.
            by apply list_elem_of_lookup_2 in Hb0. }
          assert (Ha0' := Forall_lookup_1 _ _ _ _ Hkept Ha0). simpl in Ha0'.
          specialize (Hstrict Hne). unfold now in Ha0'. lia. }
        rewrite Hj0 in Ha.
        assert (a ≤ y)%Z by (by apply (Hasc_kept 0 1 a y); [lia| |]).
        unfold t. lia.
    + intros Hcalls. exfalso.
      assert (Hk : kept = []).
      { specialize (Hnone Hcalls). rewrite Hexec' in Hnone.
        by apply app_eq_nil in Hnone as [_ ?]. }
      destruct Hfull as (y & Hy & _); [rewrite Hk; simpl; lia|].
      rewrite Hk in Hy. by destruct (decide (calls = 1%Z)); [lia|].
  - simpl. split; simpl; [done|done| |done|done].
    by exists (old ++ dropped).
Qed.

(** The timing of a sequence of calls that the guarantee relies on: time
    does not run backwards, and unless [calls = 1] the clock has moved
    when [wrapper] is entered again. *)
Definition well_timed (inputs : list (Z * Z * X)) : Prop :=
  Forall (λ i, (0 ≤ i.1.1)%Z ∧ (0 ≤ i.1.2)%Z ∧ (calls ≠ 1%Z → 0 < i.1.1)%Z) inputs.

Lemma run_invariant (inputs : list (Z * Z * X)) (st : limiter * W) :
  invariant st.1 → well_timed inputs →
  invariant (run calls seconds f inputs st).1.
Proof.
  revert st. induction inputs as [|i inputs IH]; intros st Hinv Htimed; [done|].
  apply Forall_cons in Htimed as [(Hgap & Hlag & Hstrict) Htimed].
  unfold run. simpl. apply IH; [|done].
  by apply wrapper_invariant.
Qed.

(** On a clock that moves, the executions of any sequence of calls are
    ascending in time, [calls + 1] executions in a row take at least
    [seconds], and no window holds more than [calls] executions. *)
Lemma rate_limited_spaced (inputs : list (Z * Z * X)) (t0 : Z) (w : W) :
  well_timed inputs → (1 ≤ calls)%Z →
  spaced seconds (Z.to_nat calls)
    (executed (run calls seconds f inputs (fresh t0, w)).1).
Proof.
  intros Htimed Hcalls.
  by apply (inv_spaced _ (run_invariant inputs (fresh t0, w) (invariant_fresh t0) Htimed)).
Qed.

Lemma rate_limited_window (inputs : list (Z * Z * X)) (t0 t : Z) (w : W) :
  well_timed inputs → (0 ≤ calls)%Z →
  (Z.of_nat (calls_in_window seconds t
               (executed (run calls seconds f inputs (fresh t0, w)).1)) ≤ calls)%Z.
Proof.
  intros Htimed Hcalls.
  pose proof (run_invariant inputs (fresh t0, w) (invariant_fresh t0) Htimed) as Hinv.
  destruct (decide (calls = 0%Z)) as [Hzero|Hpos].
  - rewrite (inv_none _ Hinv) by lia. unfold calls_in_window. simpl. lia.
  - assert (Hk := spaced_window seconds t (Z.to_nat calls) _
                    (inv_ascending _ Hinv) (inv_spaced _ Hinv ltac:(lia))).
    lia.
Qed.
End RateLimiterProperties.

(** C1: the bound of [calls] executions per window does not hold for
    every sequence of calls.  With [calls = 2] the delay is taken from
    [last_calls[1]].  After the third call of [burst] has slept until
    tick 10, the list is [[0; 0; 10]], the entry at index 1 leaves the
    window at that very tick, and the fourth and the fifth call are not
    delayed: three executions fall on tick 10, in a window of ten ticks
    that allows two.  [rate_limited_window] gives the bound for the
    sequences of calls between which the clock moves, and for
    [calls = 1]. *)
Theorem rate_limited_burst :
  rate_limited.executed
    (rate_limited.run 2 10 instant burst (rate_limited.fresh 0, ())).1
  = [0; 0; 10; 10; 10]%Z
  ∧ rate_limited.calls_in_window 10 10 [0; 0; 10; 10; 10]%Z = 3.
Proof. split; by vm_compute. Qed.

(** * Further properties *)

(** ** Locale parsers *)

Lemma split_go_nonempty (sep : ustring) (s : ustring) (skip : nat) (cur : ustring) :
  ∃ x l, split_go sep skip cur s = x :: l.
Proof.
  revert skip cur. induction s as [|c s IH]; intros skip cur; simpl.
  - by eexists _, _.
  - destruct skip as [|k]; [|apply IH].
    destruct (is_prefix sep (c :: s)); [by eexists _, _|apply IH].
Qed.

(** Cutting off a first field that is free of the separator [", "]. *)
Lemma split_go_field (a r cur : ustring) :
  ¬ occurs (ustr ", ") a →
  split_go (ustr ", ") 0 cur (a ++ ustr ", " ++ r)
  = (reverse cur ++ a) :: split (ustr ", ") r.
Proof.
  change (ustr ", ") with [44%N; 32%N].
  revert cur. induction a as [|c a IH]; intros cur Hno.
  - simpl. by rewrite app_nil_r.
  - assert (Hp : is_prefix [44%N; 32%N] ((c :: a) ++ [44%N; 32%N] ++ r) = false).
    { cbn [is_prefix app]. destruct (N.eqb_spec 44 c) as [<-|]; [|done].
      destruct a as [|x a]; [done|]. cbn [is_prefix app andb].
      destruct (N.eqb_spec 32 x) as [<-|]; [|done].
      destruct Hno. by exists [], a. }
    change (split_go [44%N; 32%N] 0 cur ((c :: a) ++ [44%N; 32%N] ++ r))
      with (if is_prefix [44%N; 32%N] ((c :: a) ++ [44%N; 32%N] ++ r)
            then reverse cur :: split_go [44%N; 32%N] 1 [] (a ++ [44%N; 32%N] ++ r)
            else split_go [44%N; 32%N] 0 (c :: cur) (a ++ [44%N; 32%N] ++ r)).
    rewrite Hp, IH.
    + by rewrite reverse_cons, <- app_assoc.
    + intros (pre & post & ->). apply Hno. by exists (c :: pre), post.
Qed.

(** X1: an address of exactly two fields, [a + ", " + b], is returned as
    a suburb only: the suburb is the first field without the white
    space around it, and the second field is not looked at. *)
Theorem parse_address_suburb_only (a b : ustring) :
  ¬ occurs (ustr ", ") a → ¬ occurs (ustr ", ") b →
  parse_address (a ++ ustr ", " ++ b) = Ok (None, None, strip a).
Proof.
  intros Ha Hb. apply (parse_address_two_fields _ a b).
  unfold split. rewrite split_go_field by done. by rewrite split_no_sep.
Qed.

Lemma parse_address_suburb_only_witness :
  parse_address (ustr "Innenstadt-Ost " ++ ustr ", " ++ ustr "Karlsruhe")
  = Ok (None, None, ustr "Innenstadt-Ost").
Proof.
  apply (parse_address_suburb_only (ustr "Innenstadt-Ost ") (ustr "Karlsruhe"));
    intros Hocc; apply occurs_contains in Hocc; vm_compute in Hocc; discriminate.
Defined.

(** X2: an address of three fields or more whose first field has a
    space is cut at the last space of that field into street and
    number, the street goes through the substitution, the suburb is the
    second field, and what follows the second separator has no
    influence on the result. *)
Theorem parse_address_street_number (a b rest street number : ustring) :
  ¬ occurs (ustr ", ") a → ¬ occurs (ustr ", ") b →
  strip a = street ++ 32%N :: number → 32%N ∉ number →
  parse_address (a ++ ustr ", " ++ b ++ ustr ", " ++ rest)
  = Ok (Some (re_sub_strasse street), Some number, strip b).
Proof.
  intros Ha Hb Hstrip Hnumber.
  destruct (split_go_nonempty (ustr ", ") rest 0 []) as (c & fields & Hrest).
  apply (parse_address_more_fields _ a b c street number fields); [|done..].
  unfold split. rewrite split_go_field by done.
  unfold split. rewrite split_go_field by done.
  unfold split. by rewrite Hrest.
Qed.

Lemma parse_address_street_number_witness :
  parse_address (ustr "Kaiser Str. 12" ++ ustr ", " ++ ustr "Innenstadt"
                 ++ ustr ", " ++ ustr "Karlsruhe")
  = Ok (Some (re_sub_strasse (ustr "Kaiser Str.")), Some (ustr "12"),
        ustr "Innenstadt").
Proof.
  apply (parse_address_street_number (ustr "Kaiser Str. 12") (ustr "Innenstadt")
           (ustr "Karlsruhe") (ustr "Kaiser Str.") (ustr "12")).
  - intros Hocc. apply occurs_contains in Hocc. vm_compute in Hocc. discriminate.
  - intros Hocc. apply occurs_contains in Hocc. vm_compute in Hocc. discriminate.
  - reflexivity.
  - vm_compute. intros Hin. by repeat (apply elem_of_cons in Hin as [Hin|Hin];
      [discriminate|]); apply elem_of_nil in Hin.
Defined.

(** The substitution either leaves the street as it is, or returns a
    stem followed by [S] or [s] and "traße". *)
Lemma re_sub_strasse_cases (street : ustring) :
  re_sub_strasse street = street
  ∨ ∃ stem c, re_sub_strasse street
              = stem ++ c :: ustr "tra" ++ [eszett] ++ ustr "e".
Proof.
  unfold re_sub_strasse. generalize (reverse street). intros l.
  repeat match goal with
         | |- context [match ?x with _ => _ end] => is_var x; destruct x
         end;
    try (by left);
    match goal with
    | |- context [if ?b then _ else _] => destruct b
    end; (by left) || (right; by eexists _, _).
Qed.

(** X3: the substitution of [parse_address] is idempotent: a street
    that has been normalized once is not changed by a second pass. *)
Theorem re_sub_strasse_idempotent (street : ustring) :
  re_sub_strasse (re_sub_strasse street) = re_sub_strasse street.
Proof.
  destruct (re_sub_strasse_cases street) as [Hsame|(stem & c & ->)];
    [by rewrite !Hsame|].
  unfold re_sub_strasse at 1.
  replace (stem ++ c :: ustr "tra" ++ [eszett] ++ ustr "e")
    with (stem ++ [c] ++ ustr "tra" ++ [eszett] ++ ustr "e") by done.
  rewrite !reverse_app. by vm_compute.
Qed.

Lemma replace1_app (old : N) (new s1 s2 : ustring) :
  replace1 old new (s1 ++ s2) = replace1 old new s1 ++ replace1 old new s2.
Proof.
  unfold replace1. apply bind_app.
Qed.

Lemma replace1_free (old : N) (new s : ustring) :
  old ∉ s → replace1 old new s = s.
Proof.
  unfold replace1. induction s as [|c s IH]; intros Hfree; [done|].
  rewrite bind_cons, IH by (intros ?; apply Hfree; by right).
  destruct (N.eqb_spec c old) as [->|]; [|done].
  destruct Hfree. by left.
Qed.

Section LocaleProperties.
Context {F : Type}.
Variable py_float : ustring → result F.

(** X4: [parse_german_float] drops a dot and turns a comma into a dot
    before it converts: with [a], [b] and [c] free of both characters,
    ["a.b,c"] is converted as ["ab.c"] and ["a,c"] as ["a.c"]; a dot
    alone is dropped, so ["a.b"] is converted as ["ab"]. *)
Theorem parse_german_float_separators (a b c : ustring) :
  46%N ∉ a → 44%N ∉ a → 46%N ∉ b → 44%N ∉ b → 46%N ∉ c → 44%N ∉ c →
  parse_german_float py_float (a ++ ustr "." ++ b ++ ustr "," ++ c)
  = py_float (a ++ b ++ ustr "." ++ c)
  ∧ parse_german_float py_float (a ++ ustr "," ++ c) = py_float (a ++ ustr "." ++ c)
  ∧ parse_german_float py_float (a ++ ustr "." ++ b) = py_float (a ++ b).
Proof.
  intros Ha1 Ha2 Hb1 Hb2 Hc1 Hc2. unfold parse_german_float.
  rewrite !replace1_app.
  rewrite !(replace1_free 46 [] a), !(replace1_free 46 [] b),
    !(replace1_free 46 [] c) by done.
  rewrite !(replace1_free 44 _ a), !(replace1_free 44 _ b),
    !(replace1_free 44 _ c) by done.
  repeat split; reflexivity.
Qed.
End LocaleProperties.

Lemma parse_german_float_separators_witness :
  parse_german_float decimal (ustr "1" ++ ustr "." ++ ustr "234")
  = decimal (ustr "1" ++ ustr "234").
Proof.
  refine (proj2 (proj2 (parse_german_float_separators decimal
            (ustr "1") (ustr "234") (ustr "0") _ _ _ _ _ _)));
    vm_compute; intros Hin;
    by repeat (apply elem_of_cons in Hin as [Hin|Hin]; [discriminate|]);
       apply elem_of_nil in Hin.
Defined.

(** ** Listing extractor *)

Section ExtractorFurther.
Context {F : Type}.
Variable py_float : ustring → result F.

(** X5: a block without a link that starts with [/expose/] is passed
    over: the page gives the same listings and the same count of blocks
    without address as the page without that block. *)
Theorem extract_listings_skips_block (before after : list entry) (e : entry) :
  find_listing_id (entry_links e) = Ok None →
  extract_listings py_float (before ++ e :: after)
  = extract_listings py_float (before ++ after).
Proof.
  intros Hid. unfold extract_listings. rewrite !foldM_app.
  destruct (foldM _ _ before) as [st|err]; [|done].
  assert (Hskip : extract_entry py_float st e = Ok st).
  { unfold extract_entry. by rewrite Hid. }
  cbn -[extract_entry]. by rewrite Hskip.
Qed.

(** X6: when the first block with an identifier has no criterion that
    sets the rent, the variable [rent] is read before it is bound, and
    the extraction of the page raises [UnboundLocalError]. *)
Theorem extract_listings_unbound_rent (soup : list entry) (e : entry)
    (listing_id : ustring) (div : address_div) (a : option F) :
  find_listing_id (entry_links e) = Ok (Some listing_id) →
  entry_address e = Some div →
  (truthy (first_content (div_span div)) = true →
   ∃ addr, parse_address (unicode (first_content (div_span div))) = Ok addr) →
  foldM (scan_criterion py_float) (None, None) (entry_criteria e) = Ok (None, a) →
  extract_listings py_float (e :: soup) = Raise UnboundLocalError.
Proof.
  intros Hid Hdiv Haddr Hscan. unfold extract_listings. simpl.
  unfold extract_entry. rewrite Hid. simpl. rewrite Hdiv. simpl.
  destruct (truthy (first_content (div_span div))); simpl.
  - destruct Haddr as [addr ->]; [done|]. simpl. by rewrite Hscan.
  - by rewrite Hscan.
Qed.

Lemma extract_entry_grows (st st' : @locals F) (e : entry) :
  extract_entry py_float st e = Ok st' →
  (no_addresses st ≤ no_addresses st' ≤ no_addresses st + 1)%Z
  ∧ size (listings st') ≤ S (size (listings st)).
Proof.
  unfold extract_entry. intros Hstep.
  destruct (find_listing_id (entry_links e)) as [[listing_id|]|]; simpl in Hstep;
    [| |done].
  2: { inversion Hstep; subst. split; [lia|lia]. }
  destruct (entry_address e) as [div|]; simpl in Hstep; [|done].
  destruct (truthy (first_content (div_span div))); simpl in Hstep.
  - destruct (parse_address _) as [addr|]; simpl in Hstep; [|done].
    destruct (foldM _ _ (entry_criteria e)) as [[r a]|]; simpl in Hstep; [|done].
    destruct (read_var r) as [rv|]; simpl in Hstep; [|done].
    destruct (read_var a) as [av|]; simpl in Hstep; [|done].
    inversion Hstep; subst. simpl. split; [lia|].
    rewrite map_size_insert. destruct (listings st !! listing_id); simpl; lia.
  - destruct (foldM _ _ (entry_criteria e)) as [[r a]|]; simpl in Hstep; [|done].
    destruct (read_var r) as [rv|]; simpl in Hstep; [|done].
    destruct (read_var a) as [av|]; simpl in Hstep; [|done].
    inversion Hstep; subst. simpl. split; [lia|].
    rewrite map_size_insert. destruct (listings st !! listing_id); simpl; lia.
Qed.

Lemma extract_loop_grows (soup : list entry) (st st' : @locals F) :
  foldM (extract_entry py_float) st soup = Ok st' →
  (no_addresses st ≤ no_addresses st'
   ≤ no_addresses st + Z.of_nat (length soup))%Z
  ∧ size (listings st') ≤ size (listings st) + length soup.
Proof.
  revert st. induction soup as [|e soup IH]; intros st Hloop; simpl in Hloop.
  - inversion Hloop; subst. simpl. lia.
  - destruct (extract_entry py_float st e) as [st1|] eqn:Hstep; [|done].
    simpl in Hloop. apply extract_entry_grows in Hstep.
    apply IH in Hloop. simpl length. lia.
Qed.

(** X7: when a page is extracted, the count of blocks without address
    lies between 0 and the number of blocks of the page, and the page
    gives at most as many listings as it has blocks. *)
Theorem extract_listings_bounds (soup : list entry)
    (extracted : gmap ustring (@listing F)) (count : Z) :
  extract_listings py_float soup = Ok (extracted, count) →
  (0 ≤ count ≤ Z.of_nat (length soup))%Z ∧ size extracted ≤ length soup.
Proof.
  unfold extract_listings. intros Hext.
  destruct (foldM _ _ soup) as [st|] eqn:Hloop; [|done].
  simpl in Hext. inversion Hext; subst.
  apply extract_loop_grows in Hloop. simpl in Hloop.
  rewrite map_size_empty in Hloop. lia.
Qed.
End ExtractorFurther.


Lemma extract_listings_skips_block_witness :
  extract_listings decimal
    (no_address_page ++ {| entry_links := [None; Some (ustr "/impressum")];
                           entry_address := None; entry_criteria := [] |} :: [])
  = extract_listings decimal (no_address_page ++ []).
Proof. by apply (extract_listings_skips_block decimal). Defined.

Lemma extract_listings_unbound_rent_witness :
  extract_listings decimal
    [ {| entry_links := [Some (ustr "/expose/8")];
         entry_address := text_span (ustr "Oststadt, Karlsruhe");
         entry_criteria := [Some (Some (ustr "3 Zi."))] |} ]
  = Raise UnboundLocalError.
Proof.
  eapply (extract_listings_unbound_rent decimal).
  - reflexivity.
  - reflexivity.
  - intros _. eexists. reflexivity.
  - reflexivity.
Defined.

Lemma extract_listings_bounds_witness :
  (0 ≤ 1 ≤ Z.of_nat (length no_address_page))%Z
  ∧ size ({[ ustr "7" := {| street := Some []; number := Some []; suburb := [];
                            rent := 500%Z; area := 50%Z |} ]}
          : gmap ustring (@listing Z)) ≤ length no_address_page.
Proof. apply (extract_listings_bounds decimal no_address_page). by vm_compute. Defined.

(** ** Listing store *)

Section StoreFurther.
Context {F : Type}.
Implicit Types (now : Z) (acc : gmap ustring (@row F) * Z) (id : ustring).
Implicit Types (t : ustring * @listing F) (tuples : list (ustring * @listing F)).

Lemma insert_or_ignore_dom now acc t id :
  is_Some ((insert_or_ignore now acc t).1 !! id)
  ↔ is_Some (acc.1 !! id) ∨ t.1 = id.
Proof.
  unfold insert_or_ignore. destruct (acc.1 !! t.1) eqn:Ht; simpl.
  - split; [by left|]. intros [?|<-]; [done|]. by rewrite Ht.
  - destruct (decide (t.1 = id)) as [<-|Hne].
    + rewrite lookup_insert_eq. split; [by right|by eexists].
    + rewrite lookup_insert_ne by done. split; [by left|]. by intros [?|?].
Qed.

Lemma executemany_insert_dom now tuples acc id :
  is_Some ((foldl (insert_or_ignore now) acc tuples).1 !! id)
  ↔ is_Some (acc.1 !! id) ∨ ∃ l, (id, l) ∈ tuples.
Proof.
  revert acc. induction tuples as [|t tuples IH]; intros acc; simpl.
  - split; [by left|]. intros [?|[l Hl]]; [done|]. by apply elem_of_nil in Hl.
  - rewrite IH, insert_or_ignore_dom. destruct t as [tid tl]. simpl. split.
    + intros [[?|<-]|[l Hl]]; [by left| |right; exists l; by right].
      right. exists tl. by left.
    + intros [?|[l Hl]]; [by left; left|].
      apply elem_of_cons in Hl as [Heq|Hl]; [|right; by exists l].
      inversion Heq; subst. left. by right.
Qed.

(** The table gains at most one row for each statement. *)
Lemma executemany_insert_size now tuples acc :
  size acc.1 ≤ size (foldl (insert_or_ignore now) acc tuples).1
             ≤ size acc.1 + length tuples.
Proof.
  revert acc. induction tuples as [|t tuples IH]; intros acc; simpl; [lia|].
  specialize (IH (insert_or_ignore now acc t)).
  assert (size acc.1 ≤ size (insert_or_ignore now acc t).1 ≤ size acc.1 + 1).
  { unfold insert_or_ignore. destruct (acc.1 !! t.1) eqn:Ht; simpl; [lia|].
    rewrite map_size_insert_None by done. lia. }
  lia.
Qed.

(** X8: for a set with at least one listing, [store_listings] returns
    the number of rows the table has gained, a number between 0 and the
    number of listings given; for the empty set it returns -1 and leaves
    the table as it is.  The identifiers in the table afterwards are
    those that were in it and those of the listings. *)
Theorem store_listings_count (now : Z) (db : gmap ustring (@row F))
    (listings : gmap ustring (@listing F)) :
  (store_listings now db listings).2
  = (if decide (listings = ∅) then -1
     else Z.of_nat (size (store_listings now db listings).1)
          - Z.of_nat (size db))%Z
  ∧ (if decide (listings = ∅) then store_listings now db listings = (db, (-1)%Z)
     else (0 ≤ (store_listings now db listings).2 ≤ Z.of_nat (size listings))%Z)
  ∧ ∀ id, is_Some ((store_listings now db listings).1 !! id)
          ↔ is_Some (db !! id) ∨ is_Some (listings !! id).
Proof.
  split; [apply store_listings_rowcount|split].
  - pose proof (store_listings_rowcount now db listings) as Hc.
    destruct (decide (listings = ∅)) as [->|Hne].
    + unfold store_listings, executemany_insert. by rewrite map_to_list_empty.
    + rewrite Hc. unfold store_listings, executemany_insert.
      pose proof (executemany_insert_size now (map_to_list listings) (db, (-1)%Z))
        as Hb.
      simpl in Hb. rewrite length_map_to_list in Hb. lia.
  - intros id. unfold store_listings, executemany_insert.
    rewrite executemany_insert_dom. simpl.
    split; (intros [?|Hl]; [by left|right]).
    + destruct Hl as [l Hl]. apply elem_of_map_to_list in Hl. by exists l.
    + destruct Hl as [l Hl]. exists l. by apply elem_of_map_to_list.
Qed.


End StoreFurther.


(** ** Coordinate backfill *)

Lemma same_listing_refl {F : Type} (r : @row F) : same_listing r r.
Proof. by repeat split. Qed.

Lemma same_listing_trans {F : Type} (r1 r2 r3 : @row F) :
  same_listing r1 r2 → same_listing r2 r3 → same_listing r1 r3.
Proof.
  intros (?&?&?&?&?&?) (?&?&?&?&?&?). repeat split; congruence.
Qed.

(** A selected row is a row of the table without latitude and with a
    street, a number and a suburb. *)
Lemma selected_row {F : Type} (db : gmap ustring (@row F)) (id st nu su : ustring) :
  (id, st, nu, su) ∈ select_missing_coordinates db →
  ∃ r, db !! id = Some r ∧ row_latitude r = None
       ∧ row_street r = Some st ∧ row_number r = Some nu ∧ row_suburb r = Some su.
Proof.
  unfold select_missing_coordinates. intros Hin.
  apply list_elem_of_omap in Hin as ([id' r] & Hin & Hsel).
  apply elem_of_map_to_list in Hin.
  unfold missing_coordinates in Hsel. simpl in Hsel.
  destruct (row_latitude r) eqn:Hlat; [done|].
  destruct (row_suburb r) eqn:Hsu; [|done].
  destruct (row_street r) eqn:Hst; [|done].
  destruct (row_number r) eqn:Hnu; [|done].
  inversion Hsel; subst. by exists r.
Qed.

Section BackfillProperties.
Context {F G : Type}.
Variable geocode : pyval → pyval → G → result (option (F * F)) * G.
Variable second : Z.
Variable CITY : ustring.

Local Abbreviation state :=
  (@memoize_persistently.memo (option F * option F) (rate_limited.limiter * G)).

(** The staged updates carry identifiers of the rows given to the loop. *)
Lemma geocode_rows_updates (timing : nat → Z * Z)
    (rows : list (ustring * ustring * ustring * ustring)) :
  ∀ (k : nat) (updates ups : list (option F * option F * ustring)) (st st' : state),
    geocode_rows geocode second CITY timing k rows updates st = (Ok ups, st') →
    ∀ u, u ∈ ups →
      u ∈ updates ∨ ∃ street number suburb, (u.2, street, number, suburb) ∈ rows.
Proof.
  induction rows as [|[[[id street] number] suburb] rows IH];
    intros k updates ups st st' Hloop u Hu; simpl in Hloop.
  - inversion Hloop; subst. by left.
  - destruct (get_coordinates _ _ _ _ _ _ st) as [[coordinates|e] st1]; [|done].
    destruct (IH _ _ _ _ _ Hloop u Hu) as [Hin|(s1 & n1 & b1 & Hin)].
    + destruct (coordinates.1); [|by left].
      apply elem_of_app in Hin as [Hin|Hin]; [by left|].
      apply list_elem_of_singleton in Hin as ->. simpl.
      right. exists street, number, suburb. by left.
    + right. exists s1, n1, b1. by right.
Qed.

Lemma update_coordinates_row (acc : gmap ustring (@row F) * Z)
    (u : option F * option F * ustring) (id : ustring) :
  match acc.1 !! id with
  | None => (update_coordinates acc u).1 !! id = None
  | Some r =>
      ∃ r', (update_coordinates acc u).1 !! id = Some r'
            ∧ same_listing r r' ∧ (u.2 ≠ id → r' = r)
  end.
Proof.
  unfold update_coordinates.
  destruct (acc.1 !! u.2) as [ru|] eqn:Hu; simpl.
  - destruct (decide (u.2 = id)) as [Heq|Hne].
    + rewrite <- Heq, Hu, lookup_insert_eq. eexists. split; [done|].
      split; [by repeat split|done].
    + rewrite lookup_insert_ne by done.
      destruct (acc.1 !! id) as [r|]; [|done].
      exists r. split; [done|]. split; [apply same_listing_refl|done].
  - destruct (acc.1 !! id) as [r|]; [|done].
    exists r. split; [done|]. split; [apply same_listing_refl|done].
Qed.

(** The [UPDATE] statements keep the rows of the table, change nothing
    but latitude and longitude, and change no row whose identifier is
    not among the updates. *)
Lemma update_coordinates_rows (ups : list (option F * option F * ustring)) :
  ∀ (acc : gmap ustring (@row F) * Z) (id : ustring),
    match acc.1 !! id with
    | None => (foldl update_coordinates acc ups).1 !! id = None
    | Some r =>
        ∃ r', (foldl update_coordinates acc ups).1 !! id = Some r'
              ∧ same_listing r r'
              ∧ ((∀ u, u ∈ ups → u.2 ≠ id) → r' = r)
    end.
Proof.
  induction ups as [|u ups IH]; intros acc id; simpl.
  - destruct (acc.1 !! id) as [r|] eqn:Hr; [|done].
    exists r. split; [done|]. split; [apply same_listing_refl|done].
  - specialize (IH (update_coordinates acc u) id).
    pose proof (update_coordinates_row acc u id) as Hstep.
    destruct (acc.1 !! id) as [r|].
    + destruct Hstep as (r1 & Hr1 & Hsame1 & Hkeep1). rewrite Hr1 in IH.
      destruct IH as (r' & Hr' & Hsame & Hkeep). exists r'.
      split; [done|]. split; [by eapply same_listing_trans|].
      intros Hfree. rewrite Hkeep.
      * apply Hkeep1. apply Hfree. by left.
      * intros u' Hu'. apply Hfree. by right.
    + by rewrite Hstep in IH.
Qed.

(** The loop over the rows [pre ++ rows] is the loop over [pre] followed,
    when no look-up has raised, by the loop over [rows]. *)
Lemma geocode_rows_app (timing : nat → Z * Z)
    (pre rows : list (ustring * ustring * ustring * ustring)) :
  ∀ (k : nat) (updates : list (option F * option F * ustring)) (st : state),
    geocode_rows geocode second CITY timing k (pre ++ rows) updates st
    = match geocode_rows geocode second CITY timing k pre updates st with
      | (Ok ups, st1) =>
          geocode_rows geocode second CITY timing (k + length pre) rows ups st1
      | (Raise e, st1) => (Raise e, st1)
      end.
Proof.
  induction pre as [|[[[id street] number] suburb] pre IH]; intros k updates st.
  - simpl. by rewrite Nat.add_0_r.
  - cbn [app geocode_rows length].
    destruct (get_coordinates _ _ _ _ _ _ st) as [[coordinates|e] st1]; [|done].
    rewrite IH. by rewrite Nat.add_succ_r.
Qed.

(** X10: [add_coordinates] keeps every row of the table and adds none;
    it changes nothing but the latitude and the longitude of a row, and
    nothing at all in a row that has a latitude already.  When the
    look-up of a selected row raises, after look-ups that have
    returned, [add_coordinates] raises that exception to its caller, in
    the state the look-up has left, and the table is as before: the
    updates are written after the loop only. *)
Theorem add_coordinates_changes_coordinates_only (timing : nat → Z * Z)
    (db : gmap ustring (@row F)) (st : state) :
  let out := add_coordinates geocode second CITY timing db st in
  (∀ id, db !! id = None → out.1.2 !! id = None)
  ∧ (∀ id r, db !! id = Some r →
       ∃ r', out.1.2 !! id = Some r' ∧ same_listing r r'
             ∧ (row_latitude r ≠ None → r' = r))
  ∧ (∀ (pre post : list (ustring * ustring * ustring * ustring))
       (id street number suburb : ustring)
       (ups : list (option F * option F * ustring)) (st1 st2 : state) (e : exn),
       select_missing_coordinates db = pre ++ (id, street, number, suburb) :: post →
       geocode_rows geocode second CITY timing 0 pre [] st = (Ok ups, st1) →
       get_coordinates geocode second
         (timing (length pre)).1 (timing (length pre)).2
         [VUnicode (format_address CITY street number suburb)] ∅ st1
       = (Raise e, st2) →
       out = (Raise e, db, st2)).
Proof.
  cbv zeta. split; [|split]; cycle 2.
  { intros pre post id street number suburb ups st1 st2 e Hsel Hpre Hget.
    unfold add_coordinates. rewrite Hsel, geocode_rows_app, Hpre.
    cbn [geocode_rows Nat.add]. by rewrite Hget. }
  all: unfold add_coordinates;
    destruct (geocode_rows _ _ _ _ _ _ _ _) as [[ups|e] st'] eqn:Hloop; simpl.
  - intros id Hnone.
    pose proof (update_coordinates_rows ups (db, (-1)%Z) id) as Hrows.
    simpl in Hrows. by rewrite Hnone in Hrows.
  - done.
  - intros id r Hr.
    pose proof (update_coordinates_rows ups (db, (-1)%Z) id) as Hrows.
    simpl in Hrows. rewrite Hr in Hrows.
    destruct Hrows as (r' & Hr' & Hsame & Hkeep). exists r'.
    split; [done|]. split; [done|].
    intros Hlat. apply Hkeep. intros u Hu Hid.
    destruct (geocode_rows_updates _ _ _ _ _ _ _ Hloop u Hu)
      as [Hnil|(s1 & n1 & b1 & Hsel)]; [by apply elem_of_nil in Hnil|].
    rewrite Hid in Hsel.
    apply selected_row in Hsel as (r0 & Hr0 & Hlat0 & _). congruence.
  - intros id r Hr. exists r. split; [done|]. split; [apply same_listing_refl|done].
Qed.

(** X11: the table never holds coordinates for a row without address:
    when every row with a latitude has a street, a number and a suburb,
    this is so after [store_listings] and after [add_coordinates]. *)
Theorem coordinates_imply_address_kept (now : Z) (timing : nat → Z * Z)
    (db : gmap ustring (@row F)) (listings : gmap ustring (@listing F))
    (st : state) :
  coordinates_imply_address db →
  coordinates_imply_address (store_listings now db listings).1
  ∧ coordinates_imply_address (add_coordinates geocode second CITY timing db st).1.2.
Proof.
  intros Hinv. split.
  - unfold store_listings, executemany_insert.
    generalize (map_to_list listings). intros tuples.
    assert (Hgen : ∀ acc : gmap ustring (@row F) * Z,
      coordinates_imply_address acc.1 →
      coordinates_imply_address (foldl (insert_or_ignore now) acc tuples).1).
    { induction tuples as [|t tuples IH]; intros acc Hacc; [done|].
      simpl. apply IH. unfold insert_or_ignore.
      destruct (acc.1 !! t.1) eqn:Ht; [done|]. simpl.
      intros id r Hr Hlat. destruct (decide (t.1 = id)) as [Heq|Hne].
      - rewrite Heq, lookup_insert_eq in Hr. inversion Hr; subst. done.
      - rewrite lookup_insert_ne in Hr by done. by apply (Hacc id). }
    by apply (Hgen (db, (-1)%Z)).
  - unfold add_coordinates.
    destruct (geocode_rows _ _ _ _ _ _ _ _) as [[ups|e] st'] eqn:Hloop; simpl;
      [|done].
    intros id r' Hr' Hlat.
    pose proof (update_coordinates_rows ups (db, (-1)%Z) id) as Hrows. simpl in Hrows.
    destruct (db !! id) as [r|] eqn:Hr; [|congruence].
    destruct Hrows as (r'' & Hr'' & Hsame & Hkeep).
    assert (r'' = r') as -> by congruence.
    destruct Hsame as (Hst & Hnu & Hsu & _). rewrite <- Hst, <- Hnu, <- Hsu.
    destruct (decide (id ∈ ups.*2)) as [Hin|Hfree].
    + apply list_elem_of_fmap in Hin as (u & Hid & Hu). symmetry in Hid.
      destruct (geocode_rows_updates _ _ _ _ _ _ _ Hloop u Hu)
        as [Hnil|(s1 & n1 & b1 & Hsel)]; [by apply elem_of_nil in Hnil|].
      rewrite Hid in Hsel.
      apply selected_row in Hsel as (r0 & Hr0 & _ & Hst0 & Hnu0 & Hsu0).
      assert (r0 = r) as -> by congruence.
      rewrite Hst0, Hnu0, Hsu0. by repeat split.
    + assert (r' = r) as ->.
      { apply Hkeep. intros u Hu Hid. apply Hfree. rewrite <- Hid.
        by apply (list_elem_of_fmap_2 snd). }
      by apply (Hinv id).
Qed.
End BackfillProperties.

Lemma coordinates_imply_address_kept_witness :
  coordinates_imply_address
    (add_coordinates found_everywhere 1 (ustr "Karlsruhe") (λ _, (1%Z, 0%Z))
       no_address_db idle).1.2.
Proof.
  apply (coordinates_imply_address_kept found_everywhere 1 (ustr "Karlsruhe")
           0 (λ _, (1%Z, 0%Z)) no_address_db ∅ idle).
  intros id r Hr Hlat. exfalso. apply Hlat.
  assert (Hdb : no_address_db
                = {[ ustr "7" := {| row_street := Some []; row_number := Some [];
                                    row_suburb := Some []; row_rent := Some 500%Z;
                                    row_area := Some 50%Z; row_latitude := None;
                                    row_longitude := None; row_date := 0%Z |} ]})
    by (by vm_compute).
  rewrite Hdb in Hr. apply lookup_singleton_Some in Hr as [_ <-]. done.
Defined.

Lemma add_coordinates_changes_coordinates_only_witness :
  ∃ st2, add_coordinates unreachable 1 (ustr "Karlsruhe") (λ _, (1%Z, 0%Z))
           no_address_db idle
         = (Raise IOError, no_address_db, st2).
Proof.
  eexists.
  refine (proj2 (proj2 (add_coordinates_changes_coordinates_only unreachable 1
            (ustr "Karlsruhe") (λ _, (1%Z, 0%Z)) no_address_db idle))
            [] [] (ustr "7") [] [] [] [] idle _ IOError _ _ _).
  - by vm_compute.
  - reflexivity.
  - by vm_compute.
Defined.

(** ** Rate limiter *)

Section RateLimiterFurther.
Import rate_limited.
Context {X V W : Type}.
Variable calls : Z.
Variable seconds : Z.
Variable f : X → W → result V * W.

(** X12: [wrapper] never asks [time.sleep] for a negative time: on the
    list that the filter has left, the [if] statement that computes the
    delay does not raise the error of [time.sleep]. *)
Theorem delay_never_negative (now : Z) (last_calls : list Z) :
  delay calls seconds now (filter (λ x, now - x ≤ seconds)%Z last_calls)
  ≠ Raise IOError.
Proof.
  set (kept := filter (λ x, (now - x ≤ seconds)%Z) last_calls).
  assert (Hkept : ∀ x, x ∈ kept → (now - x ≤ seconds)%Z).
  { intros x Hx. by apply list_elem_of_filter in Hx as [? _]. }
  unfold delay, time_sleep, index, index_last.
  destruct (calls <=? Z.of_nat (length kept))%Z; [|done].
  destruct (calls =? 1)%Z.
  - destruct (last kept) as [x|] eqn:Hlast; simpl; [|done].
    apply last_Some_elem_of, Hkept in Hlast.
    by destruct (Z.ltb_spec (x + seconds - now) 0); [lia|].
  - destruct (kept !! 1) as [x|] eqn:Hx; simpl; [|done].
    apply list_elem_of_lookup_2, Hkept in Hx.
    by destruct (Z.ltb_spec (x + seconds - now) 0); [lia|].
Qed.

(** X13: with [calls <= 0] the decorated function is never executed:
    every call raises [IndexError] at [last_calls[1]], whatever the
    timing, and the list of executions stays empty. *)
Theorem rate_limited_zero_calls (inputs : list (Z * Z * X)) (t0 : Z) (w : W) :
  (calls ≤ 0)%Z →
  executed (run calls seconds f inputs (fresh t0, w)).1 = []
  ∧ ∀ gap lag x,
      (wrapper calls seconds f gap lag x
         (run calls seconds f inputs (fresh t0, w))).1 = Raise IndexError.
Proof.
  intros Hcalls.
  assert (Hstep : ∀ gap lag x (st : limiter * W),
    last_calls st.1 = [] → executed st.1 = [] →
    (wrapper calls seconds f gap lag x st).1 = Raise IndexError
    ∧ last_calls (wrapper calls seconds f gap lag x st).2.1 = []
    ∧ executed (wrapper calls seconds f gap lag x st).2.1 = []).
  { intros gap lag x st Hl He.
    assert (Hd : ∀ now, delay calls seconds now [] = Raise IndexError).
    { intros now. unfold delay. change (Z.of_nat (length [])) with 0%Z.
      rewrite (proj2 (Z.leb_le calls 0)) by done.
      by rewrite (proj2 (Z.eqb_neq calls 1)) by lia. }
    unfold wrapper. rewrite Hl, filter_nil, Hd. simpl. by repeat split. }
  assert (Hrun : ∀ (st : limiter * W),
    last_calls st.1 = [] → executed st.1 = [] →
    last_calls (run calls seconds f inputs st).1 = []
    ∧ executed (run calls seconds f inputs st).1 = []).
  { induction inputs as [|i inputs IH]; intros st Hl He; [done|].
    unfold run. simpl. destruct (Hstep i.1.1 i.1.2 i.2 st Hl He) as (_ & Hl' & He').
    by apply IH. }
  destruct (Hrun (fresh t0, w) eq_refl eq_refl) as [Hl He].
  split; [done|]. intros gap lag x. by apply Hstep.
Qed.

(** X14: for [calls >= 1] and every sequence of calls between which the
    clock moves (for [calls = 1]: does not run backwards), the
    executions are ascending in time, any [calls + 1] executions in a
    row take at least [seconds], and no window [(t - seconds, t]] holds
    more than [calls] executions. *)
Theorem rate_limited_guarantee (inputs : list (Z * Z * X)) (t0 : Z) (w : W) :
  (1 ≤ calls)%Z →
  Forall (λ i, (0 ≤ i.1.1)%Z ∧ (0 ≤ i.1.2)%Z ∧ (calls ≠ 1%Z → 0 < i.1.1)%Z) inputs →
  let times := executed (run calls seconds f inputs (fresh t0, w)).1 in
  ascending times
  ∧ spaced seconds (Z.to_nat calls) times
  ∧ ∀ t, (Z.of_nat (calls_in_window seconds t times) ≤ calls)%Z.
Proof.
  intros Hcalls Htimed times.
  pose proof (run_invariant calls seconds f inputs (fresh t0, w)
                (invariant_fresh calls seconds t0) Htimed) as Hinv.
  destruct Hinv as [Hasc _ _ Hsp _]. specialize (Hsp Hcalls).
  split; [done|]. split; [done|]. intros t.
  pose proof (spaced_window seconds t (Z.to_nat calls) _ Hasc Hsp). fold times in H.
  lia.
Qed.
End RateLimiterFurther.

Lemma rate_limited_zero_calls_witness :
  rate_limited.executed
    (rate_limited.run 0 10 instant burst (rate_limited.fresh 0, ())).1 = [].
Proof.
  refine (proj1 (rate_limited_zero_calls 0 10 instant burst 0 () _)). lia.
Defined.

Lemma rate_limited_guarantee_witness :
  (Z.of_nat (rate_limited.calls_in_window 10 12
               (rate_limited.executed
                  (rate_limited.run 2 10 instant steady (rate_limited.fresh 0, ())).1))
   ≤ 2)%Z.
Proof.
  refine (proj2 (proj2 (rate_limited_guarantee 2 10 instant steady 0 () _ _)) 12%Z).
  - lia.
  - repeat constructor; simpl; lia.
Defined.

(** ** Persistent memoizer *)

Lemma make_key_positional (args : list pyval) :
  memoize_persistently.make_key args ∅ = args.
Proof.
  unfold memoize_persistently.make_key. rewrite map_to_list_empty.
  simpl. by rewrite app_nil_r.
Qed.

(** X15: a positional argument that is the pair of a name and a value
    gives the same key as the keyword argument of that name and value,
    so [f((name, value))] and [f(name=value)] share one cache entry. *)
Theorem make_key_collision (name : string) (value : pyval) :
  memoize_persistently.make_key [VTuple2 (VStr name) value] ∅
  = memoize_persistently.make_key [] {[ name := value ]}.
Proof.
  rewrite make_key_positional. unfold memoize_persistently.make_key.
  by rewrite map_to_list_singleton.
Qed.

Section MemoizerFurther.
Import memoize_persistently.
Context {V W : Type}.
Variable f : list pyval → gmap string pyval → W → result V * W.

Lemma wrapper_coherent (args : list pyval) (kwargs : gmap string pyval) (st : memo) :
  load (file st) = Ok (cache st) →
  load (file (wrapper f args kwargs st).2) = Ok (cache (wrapper f args kwargs st).2).
Proof.
  intros Hco. unfold wrapper.
  destruct (cache st !! make_key args kwargs); [done|].
  by destruct (f args kwargs (world st)) as [[value|e] w].
Qed.

Lemma wrapper_keeps (args : list pyval) (kwargs : gmap string pyval) (st : memo)
    (key : list pyval) (value : V) :
  cache st !! key = Some value →
  cache (wrapper f args kwargs st).2 !! key = Some value.
Proof.
  intros Hkey. unfold wrapper.
  destruct (cache st !! make_key args kwargs) eqn:Hhit; [done|].
  destruct (f args kwargs (world st)) as [[v|e] w]; simpl; [|done].
  rewrite lookup_insert_ne; [done|]. intros Heq. congruence.
Qed.

(** On a disk that takes the write, [wrapper_writing] is [wrapper]. *)
Lemma wrapper_writing_true (args : list pyval) (kwargs : gmap string pyval)
    (st : memo) :
  wrapper_writing f true args kwargs st = wrapper f args kwargs st.
Proof. reflexivity. Qed.

Lemma wrapper_writing_coherent (args : list pyval) (kwargs : gmap string pyval)
    (st : memo) :
  load (file st) = Ok (cache st) →
  load (file (wrapper_writing f true args kwargs st).2)
  = Ok (cache (wrapper_writing f true args kwargs st).2).
Proof. rewrite wrapper_writing_true. apply wrapper_coherent. Qed.

(** X16: the cache file and the dictionary in memory stay in step as
    long as the file can be written: in a process that has loaded its
    cache from the file, after any sequence of calls whose writes
    succeed, with or without exceptions of [f], loading the file gives
    exactly the dictionary that the process holds.  A miss whose write
    fails raises IOError after the dictionary has taken the new value:
    the file is as it was, the same call is answered from the dictionary
    from then on without a call of [f], and a file that was in step is
    behind the dictionary.  A miss whose write succeeds brings the file
    in step, whatever the state before. *)
Theorem memoized_run_coherent (disk : cache_file V) (w : W) (st : memo)
    (calls : list (bool * list pyval * gmap string pyval)) :
  start disk w = Ok st →
  let st1 := memoized_run_writing f calls st in
  (Forall (λ c, c.1.1 = true) calls → load (file st1) = Ok (cache st1))
  ∧ (∀ (args : list pyval) (kwargs : gmap string pyval) (value : V) (w' : W),
       cache st1 !! make_key args kwargs = None →
       f args kwargs (world st1) = (Ok value, w') →
       let failed := wrapper_writing f false args kwargs st1 in
       let written := wrapper_writing f true args kwargs st1 in
       failed.1 = Raise IOError
       ∧ file failed.2 = file st1
       ∧ cache failed.2 = <[make_key args kwargs := value]> (cache st1)
       ∧ (∀ writable : bool,
            wrapper_writing f writable args kwargs failed.2 = (Ok value, failed.2))
       ∧ (load (file st1) = Ok (cache st1) →
          load (file failed.2) ≠ Ok (cache failed.2))
       ∧ written.1 = Ok value
       ∧ load (file written.2) = Ok (cache written.2)).
Proof.
  intros Hstart st1. split.
  - intros Hwrites.
    assert (Hco : load (file st) = Ok (cache st)).
    { unfold start in Hstart. destruct (load disk) as [m|] eqn:Hload; [|done].
      simpl in Hstart. inversion Hstart; subst. done. }
    subst st1. clear Hstart. revert st Hco.
    induction calls as [|c calls IH]; intros st Hco; [done|].
    apply Forall_cons in Hwrites as [Hc Hwrites].
    unfold memoized_run_writing. simpl. apply IH; [done|].
    rewrite Hc. by apply wrapper_writing_coherent.
  - intros args kwargs value w' Hmiss Hf. unfold wrapper_writing.
    rewrite Hmiss, Hf. simpl. rewrite lookup_insert_eq.
    repeat split; try done.
    intros Hco Hbehind. rewrite Hco in Hbehind. inversion Hbehind as [Hcache].
    assert (Hkey : cache st1 !! make_key args kwargs = Some value).
    { rewrite Hcache. by rewrite lookup_insert_eq. }
    congruence.
Qed.

(** X17: an entry of the cache is never removed or replaced: once a
    key holds a value, the call with that key returns this value after
    any sequence of other calls, and does not change the state. *)
Theorem memoized_run_keeps (args : list pyval) (kwargs : gmap string pyval)
    (value : V) (st : memo) (calls : list (list pyval * gmap string pyval)) :
  cache st !! make_key args kwargs = Some value →
  wrapper f args kwargs (memoized_run f calls st)
  = (Ok value, memoized_run f calls st).
Proof.
  intros Hkey.
  assert (Hrun : cache (memoized_run f calls st) !! make_key args kwargs = Some value).
  { revert st Hkey. induction calls as [|c calls IH]; intros st Hkey; [done|].
    unfold memoized_run. simpl. apply IH. by apply wrapper_keeps. }
  unfold wrapper. by rewrite Hrun.
Qed.
End MemoizerFurther.

Lemma memoized_run_coherent_witness :
  memoize_persistently.load
    (memoize_persistently.file
       (memoized_run_writing flaky [(true, [VUnicode (ustr "Karlsruhe")], ∅);
                                    (true, [VUnicode (ustr "nowhere")], ∅)] cold))
  = Ok (memoize_persistently.cache
          (memoized_run_writing flaky [(true, [VUnicode (ustr "Karlsruhe")], ∅);
                                       (true, [VUnicode (ustr "nowhere")], ∅)] cold))
  ∧ (memoize_persistently.wrapper_writing flaky false [VUnicode (ustr "Durlach")] ∅
       (memoized_run_writing flaky [(true, [VUnicode (ustr "Karlsruhe")], ∅);
                                    (true, [VUnicode (ustr "nowhere")], ∅)] cold)).1
    = Raise IOError.
Proof.
  pose proof (memoized_run_coherent flaky memoize_persistently.NoFile 0 cold
                [(true, [VUnicode (ustr "Karlsruhe")], ∅);
                 (true, [VUnicode (ustr "nowhere")], ∅)] eq_refl) as [Hco Hfail].
  split.
  - apply Hco. repeat constructor.
  - apply (Hfail [VUnicode (ustr "Durlach")] ∅ 49%Z 3); by vm_compute.
Defined.

Lemma memoized_run_keeps_witness :
  memoize_persistently.wrapper flaky [VUnicode (ustr "Karlsruhe")] ∅
    (memoized_run flaky [([VUnicode (ustr "nowhere")], ∅)]
       (memoize_persistently.wrapper flaky [VUnicode (ustr "Karlsruhe")] ∅ cold).2)
  = (Ok 49%Z,
     memoized_run flaky [([VUnicode (ustr "nowhere")], ∅)]
       (memoize_persistently.wrapper flaky [VUnicode (ustr "Karlsruhe")] ∅ cold).2).
Proof.
  apply (memoized_run_keeps flaky). reflexivity.
Defined.

(** ** Geocoder *)

Lemma bind_arguments_address (address : pyval) :
  bind_arguments [address] ∅ = Ok (address, VInt 5).
Proof.
  unfold bind_arguments. rewrite lookup_empty. simpl.
  rewrite decide_True; [done|]. rewrite dom_empty_L. set_solver.
Qed.

Section GeocoderFurther.
Import memoize_persistently.
Context {F G : Type}.
Variable geocode : pyval → pyval → G → result (option (F * F)) * G.
Variable second : Z.

Local Abbreviation state := (@memo (option F * option F) (rate_limited.limiter * G)).

(** With the default of one call per second the limiter computes a
    delay for every list that the filter has left. *)
Lemma delay_default (now : Z) (last_calls : list Z) :
  ∃ slept, rate_limited.delay 1 second now
             (filter (λ x, now - x ≤ second)%Z last_calls) = Ok slept.
Proof.
  set (kept := filter (λ x, (now - x ≤ second)%Z) last_calls).
  assert (Hkept : ∀ x, x ∈ kept → (now - x ≤ second)%Z).
  { intros x Hx. by apply list_elem_of_filter in Hx as [? _]. }
  unfold rate_limited.delay, index_last.
  destruct (1 <=? Z.of_nat (length kept))%Z eqn:Hlen; [|by eexists].
  simpl. destruct (last kept) as [x|] eqn:Hlast; simpl.
  - apply last_Some_elem_of, Hkept in Hlast. unfold rate_limited.time_sleep.
    destruct (Z.ltb_spec (x + second - now) 0); [lia|by eexists].
  - apply last_None in Hlast. rewrite Hlast in Hlen. done.
Qed.

(** X18: a look-up that the service answers with "no match" is
    returned as [(None, None)] and cached like any other result: the
    cache file holds it, and every later call with the same address is
    answered from the cache, without a call of the service and without
    a delay.  The time-out passed to the service is 5. *)
Theorem get_coordinates_caches_not_found (gap lag : Z) (address : ustring)
    (st : state) (g' : G) :
  cache st !! [VUnicode address] = None →
  geocode (VUnicode address) (VInt 5) (world st).2 = (Ok None, g') →
  ∃ st', get_coordinates geocode second gap lag [VUnicode address] ∅ st
         = (Ok (None, None), st')
         ∧ file st' = Pickled (cache st')
         ∧ cache st' !! [VUnicode address] = Some (None, None)
         ∧ ∀ gap' lag',
             get_coordinates geocode second gap' lag' [VUnicode address] ∅ st'
             = (Ok (None, None), st').
Proof.
  intros Hmiss Hgeo. unfold get_coordinates, wrapper.
  rewrite make_key_positional, Hmiss.
  unfold rate_limited.wrapper.
  destruct (delay_default (rate_limited.clock (world st).1 + gap)
              (rate_limited.last_calls (world st).1)) as [slept ->].
  unfold get_coordinates_body. cbn [fst snd].
  rewrite bind_arguments_address, Hgeo. simpl.
  eexists. split; [done|]. simpl. split; [done|].
  split; [by rewrite lookup_insert_eq|].
  intros gap' lag'. by rewrite lookup_insert_eq.
Qed.


End GeocoderFurther.

Lemma get_coordinates_caches_not_found_witness :
  ∃ st', get_coordinates not_found 1 0 0 [VUnicode (ustr "Nirgendwo 1")] ∅ idle
         = (Ok (None, None), st')
         ∧ ∀ gap' lag',
             get_coordinates not_found 1 gap' lag' [VUnicode (ustr "Nirgendwo 1")] ∅ st'
             = (Ok (None, None), st').
Proof.
  destruct (get_coordinates_caches_not_found not_found 1 0 0 (ustr "Nirgendwo 1")
              idle () eq_refl eq_refl) as (st' & Hcall & _ & _ & Hagain).
  by exists st'.
Defined.


(** ** Pagination driver *)

Section DriverFurther.
Context {F : Type}.
Variable py_float : ustring → result F.
Variable py_int : ustring → result Z.
Variable download : url → result page.
Variable now : Z.

Local Abbreviation loop := (get_new_listings_loop py_float py_int download now).
Local Abbreviation body := (loop_body py_float py_int download now).

Lemma loop_on_zero_total (fuel : nat) :
  (∀ i : Z, (1 ≤ i)%Z → page_reports py_float py_int download i 0) →
  ∀ st : driver,
    (1 ≤ page_index st)%Z →
    num_pages st = None ∨ num_pages st = Some 0%Z →
    loop fuel st = Ok None.
Proof.
  intros Hpages. induction fuel as [|fuel IH]; intros st Hidx Hnum; [done|].
  simpl. assert (Hcond : loop_condition st = true).
  { unfold loop_condition. by destruct Hnum as [-> | ->]. }
  rewrite Hcond.
  destruct (loop_body_reports py_float py_int download now st 0%Z (Hpages _ Hidx))
    as (st1 & Hbody & Hnum1 & Hidx1 & _).
  rewrite Hbody. simpl. apply IH; [lia|by right].
Qed.

(** X20: a total of 0 pages is taken as "not known yet": on a site
    whose pages all report the total 0, the loop of [get_new_listings]
    never ends; whatever the number of iterations allowed, it is still
    fetching pages. *)
Theorem get_new_listings_zero_total (fuel : nat) (database : gmap ustring (@row F)) :
  (∀ i : Z, (1 ≤ i)%Z → page_reports py_float py_int download i 0) →
  get_new_listings py_float py_int download now fuel database = Ok None.
Proof.
  intros Hpages. unfold get_new_listings.
  apply loop_on_zero_total; [done|simpl; lia|by left].
Qed.

(** What holds of the variables of [get_new_listings] after every
    iteration, for a run that starts on [db0]. *)
Definition accounted (db0 : gmap ustring (@row F)) (st : driver) : Prop :=
  (∀ id r, db0 !! id = Some r → db st !! id = Some r)
  ∧ new_count_index st
    = (Z.of_nat (size (db st)) - Z.of_nat (size db0)
       - Z.of_nat (length (filter (λ i, holds_no_listing py_float download i = true)
                             (fetched st))))%Z
  ∧ (0 ≤ non_addr_index st)%Z
  ∧ page_index st = (1 + Z.of_nat (length (fetched st)))%Z.

Lemma loop_body_accounted (db0 : gmap ustring (@row F)) (st st' : driver) :
  body st = Ok st' → accounted db0 st → accounted db0 st'.
Proof.
  unfold loop_body. intros Hbody (Hrows & Hnew & Hnon & Hidx).
  destruct (get_page download (page_index st)) as [soup|] eqn:Hpage; [|done].
  simpl in Hbody.
  destruct (extract_number_of_pages py_int soup) as [n|]; [|done].
  simpl in Hbody.
  destruct (extract_listings py_float (page_entries soup)) as [[ls count]|] eqn:Hext;
    [|done].
  simpl in Hbody. inversion Hbody; subst; clear Hbody.
  assert (Hcount : (0 ≤ count)%Z).
  { unfold extract_listings in Hext.
    destruct (foldM _ _ (page_entries soup)) as [st1|] eqn:Hloop; [|done].
    simpl in Hext. inversion Hext; subst.
    apply extract_loop_grows in Hloop. simpl in Hloop. lia. }
  assert (Hempty : holds_no_listing py_float download (page_index st)
                   = (size ls =? 0)).
  { unfold holds_no_listing. by rewrite Hpage, Hext. }
  pose proof (store_listings_rowcount now (db st) ls) as Hrc.
  unfold accounted. cbn [db new_count_index non_addr_index page_index fetched fst snd].
  rewrite filter_app, !length_app.
  split; [|split; [|split]].
  - intros id r Hr. unfold store_listings, executemany_insert.
    apply executemany_insert_keeps. simpl. by apply Hrows.
  - rewrite Hrc. destruct (decide (ls = ∅)) as [->|Hne].
    + rewrite filter_cons_True by (by rewrite Hempty, map_size_empty).
      rewrite filter_nil. unfold store_listings, executemany_insert.
      rewrite map_to_list_empty. simpl. lia.
    + rewrite filter_cons_False, filter_nil; [simpl; lia|].
      rewrite Hempty. apply map_size_non_empty_iff in Hne.
      by destruct (size ls).
  - lia.
  - simpl. lia.
Qed.

Lemma loop_accounted (db0 : gmap ustring (@row F)) (fuel : nat) :
  ∀ st st' : driver,
    loop fuel st = Ok (Some st') → accounted db0 st → accounted db0 st'.
Proof.
  induction fuel as [|fuel IH]; intros st st' Hloop Hacc; [done|].
  simpl in Hloop. destruct (loop_condition st).
  - destruct (body st) as [st1|] eqn:Hbody; [|done]. simpl in Hloop.
    apply (IH st1); [done|]. by apply (loop_body_accounted db0 st).
  - by inversion Hloop; subst.
Qed.

(** X21: when [get_new_listings] comes to an end, every row that was in
    the table is in it unchanged; the overall count of new listings is
    the number of rows the table has gained over all pages, less one
    for every fetched page that held no listing, for which
    [store_listings] returns -1; the overall count of listings without
    address is not negative, and the index is one more than the number
    of pages fetched. *)
Theorem get_new_listings_accounts (fuel : nat) (database : gmap ustring (@row F))
    (st : driver) :
  get_new_listings py_float py_int download now fuel database = Ok (Some st) →
  (∀ id r, database !! id = Some r → db st !! id = Some r)
  ∧ new_count_index st
    = (Z.of_nat (size (db st)) - Z.of_nat (size database)
       - Z.of_nat (length (filter (λ i, holds_no_listing py_float download i = true)
                             (fetched st))))%Z
  ∧ (0 ≤ non_addr_index st)%Z
  ∧ page_index st = (1 + Z.of_nat (length (fetched st)))%Z.
Proof.
  unfold get_new_listings. intros Hrun.
  apply (loop_accounted database fuel _ st Hrun).
  unfold accounted. simpl. rewrite Z.sub_diag. by repeat split.
Qed.
End DriverFurther.

Lemma get_new_listings_zero_total_witness :
  get_new_listings decimal decimal empty_site 0 25 (∅ : gmap ustring (@row Z))
  = Ok None.
Proof.
  apply (get_new_listings_zero_total decimal decimal empty_site 0 25 ∅).
  intros i Hi. eexists _, _. split; [reflexivity|]. split; reflexivity.
Defined.

Lemma get_new_listings_accounts_witness :
  ∃ st, get_new_listings decimal decimal growing_site 0 10 (∅ : gmap ustring (@row Z))
        = Ok (Some st)
        ∧ fetched st = [1; 2; 3]%Z
        ∧ new_count_index st = (-3)%Z.
Proof.
  eexists. split; [by vm_compute|]. split; [reflexivity|].
  etransitivity.
  - refine (proj1 (proj2 (get_new_listings_accounts decimal decimal
              growing_site 0 10 ∅ _ _))).
    by vm_compute.
  - by vm_compute.
Defined.
